(** * Tetris: a shallow embedding of the game engine of [src/tetris.tsx]

    The component keeps its session in React state cells.  Every handler
    closes over the values of one render (the snapshot) and queues state
    updates; the updates queued by one handler or callback are batched
    and applied, in order, once it has returned, and the next event runs
    the handlers of the render that follows.  The embedding keeps exactly
    that structure: a handler is a function from a snapshot to the list
    of updates it queues, and [step] applies them.  The deferred row
    removal ([setTimeout]) is a closure stored in a queue of pending
    callbacks; it reads the variables it captured when it was created.

    Numbers: coordinates, score and level are JavaScript numbers holding
    integers, modelled by [Z].  That is exact as long as the values stay
    within the integers a double holds exactly (up to 2^53), as they do
    in every run evaluated below; a statement about the score arithmetic
    in an arbitrary state carries that range as a hypothesis.  The drop
    interval is a double that is repeatedly multiplied by 0.95; it is
    modelled by an exact rational. *)

From Stdlib Require Import ZArith QArith Lia.
From stdpp Require Import base numbers list strings.

Local Open Scope Z_scope.

(** ** Values stored in shape matrices and in board cells *)

(** A matrix entry is a number (shapes hold 0/1, empty board cells hold
    0), a colour class name, or [undefined] (reading past the end of an
    array). *)
Inductive value :=
| Num (n : Z)
| Str (s : string)
| Undefined.

Abbreviation Shape := (list (list value)).
Abbreviation Board := (list (list value)).

(** [v !== 0] *)
Definition nonzero (v : value) : bool :=
  match v with
  | Num 0 => false
  | _ => true
  end.

(** [arr[i]]: reading an index that is not there gives [undefined]. *)
Definition elemAt (arr : list value) (i : nat) : value :=
  default Undefined (arr !! i).

Definition BOARD_WIDTH : Z := 10.
Definition BOARD_HEIGHT : Z := 20.
Definition INITIAL_DROP_TIME : Q := 800 # 1.
Definition SPEED_INCREASE_FACTOR : Q := 95 # 100.

(** [Array(BOARD_WIDTH).fill(0)] *)
Definition emptyRow : list value := replicate (Z.to_nat BOARD_WIDTH) (Num 0).

Definition createEmptyBoard : Board := replicate (Z.to_nat BOARD_HEIGHT) emptyRow.

(** ** The piece catalogue *)

Module Key.
Inductive t := I | J | L | O | S | T | Z.
End Key.

Record Tetromino := {
  shape : Shape;
  color : string;
  name : string
}.

Definition TETROMINOS (k : Key.t) : Shape * string :=
  match k with
  | Key.I => ([[Num 1; Num 1; Num 1; Num 1]], "bg-cyan-500"%string)
  | Key.J => ([[Num 1; Num 0; Num 0]; [Num 1; Num 1; Num 1]], "bg-blue-500"%string)
  | Key.L => ([[Num 0; Num 0; Num 1]; [Num 1; Num 1; Num 1]], "bg-orange-500"%string)
  | Key.O => ([[Num 1; Num 1]; [Num 1; Num 1]], "bg-yellow-500"%string)
  | Key.S => ([[Num 0; Num 1; Num 1]; [Num 1; Num 1; Num 0]], "bg-green-500"%string)
  | Key.T => ([[Num 0; Num 1; Num 0]; [Num 1; Num 1; Num 1]], "bg-purple-500"%string)
  | Key.Z => ([[Num 1; Num 1; Num 0]; [Num 0; Num 1; Num 1]], "bg-red-500"%string)
  end.

Definition keyName (k : Key.t) : string :=
  match k with
  | Key.I => "I" | Key.J => "J" | Key.L => "L" | Key.O => "O"
  | Key.S => "S" | Key.T => "T" | Key.Z => "Z"
  end.

(** [randomTetromino]: the argument is the key that the uniform draw
    [keys[Math.floor(Math.random() * keys.length)]] selected. *)
Definition randomTetromino (randKey : Key.t) : Tetromino :=
  {| shape := fst (TETROMINOS randKey);
     color := snd (TETROMINOS randKey);
     name := keyName randKey |}.

Module Piece.
Record t := mk {
  x : Z;
  y : Z;
  tetromino : Tetromino
}.
End Piece.

(** ** Session state *)

Record State := {
  board : Board;
  currentPiece : option Piece.t;
  score : Z;
  gameOver : bool;
  dropTime : Q;
  level : Z;
  completedRows : list nat
}.

(** The closure handed to [setTimeout] by [checkCompletedRows]: the
    variables it captured when it was created. *)
Record ClearTask := {
  boardToCheck : Board;
  completedRowIndices : list nat;
  cl_score : Z;
  cl_level : Z
}.

(** The React state together with the browser's queue of pending
    timeouts (oldest first; all have the same delay, so they fire in the
    order in which they were scheduled). *)
Record World := {
  st : State;
  timeouts : list ClearTask
}.

(** A queued state update or scheduled timeout.  A functional update
    of the active piece is only ever queued by a handler whose snapshot
    has an active piece, as the first piece update of its batch, so it
    always finds one; applied to no piece it is taken to leave none. *)
Inductive Update :=
| setBoard (b : Board)
| setCurrentPiece (p : option Piece.t)
| setCurrentPieceFn (f : Piece.t -> Piece.t)
| setScore (n : Z)
| setGameOver (g : bool)
| setDropTime (q : Q)
| setDropTimeFn (f : Q -> Q)
| setLevel (n : Z)
| setLevelFn (f : Z -> Z)
| setCompletedRows (rows : list nat)
| setTimeout (task : ClearTask).

Definition applyState (s : State) (u : Update) : State :=
  match u with
  | setBoard b =>
      {| board := b; currentPiece := currentPiece s; score := score s;
         gameOver := gameOver s; dropTime := dropTime s; level := level s;
         completedRows := completedRows s |}
  | setCurrentPiece p =>
      {| board := board s; currentPiece := p; score := score s;
         gameOver := gameOver s; dropTime := dropTime s; level := level s;
         completedRows := completedRows s |}
  | setCurrentPieceFn f =>
      {| board := board s; currentPiece := f <$> currentPiece s; score := score s;
         gameOver := gameOver s; dropTime := dropTime s; level := level s;
         completedRows := completedRows s |}
  | setScore n =>
      {| board := board s; currentPiece := currentPiece s; score := n;
         gameOver := gameOver s; dropTime := dropTime s; level := level s;
         completedRows := completedRows s |}
  | setGameOver g =>
      {| board := board s; currentPiece := currentPiece s; score := score s;
         gameOver := g; dropTime := dropTime s; level := level s;
         completedRows := completedRows s |}
  | setDropTime q =>
      {| board := board s; currentPiece := currentPiece s; score := score s;
         gameOver := gameOver s; dropTime := q; level := level s;
         completedRows := completedRows s |}
  | setDropTimeFn f =>
      {| board := board s; currentPiece := currentPiece s; score := score s;
         gameOver := gameOver s; dropTime := f (dropTime s); level := level s;
         completedRows := completedRows s |}
  | setLevel n =>
      {| board := board s; currentPiece := currentPiece s; score := score s;
         gameOver := gameOver s; dropTime := dropTime s; level := n;
         completedRows := completedRows s |}
  | setLevelFn f =>
      {| board := board s; currentPiece := currentPiece s; score := score s;
         gameOver := gameOver s; dropTime := dropTime s; level := f (level s);
         completedRows := completedRows s |}
  | setCompletedRows rows =>
      {| board := board s; currentPiece := currentPiece s; score := score s;
         gameOver := gameOver s; dropTime := dropTime s; level := level s;
         completedRows := rows |}
  | setTimeout _ => s
  end.

Definition applyUpdate (w : World) (u : Update) : World :=
  {| st := applyState (st w) u;
     timeouts := match u with
                 | setTimeout task => timeouts w ++ [task]
                 | _ => timeouts w
                 end |}.

Definition applyUpdates (w : World) (us : list Update) : World :=
  foldl applyUpdate w us.

(** What a handler did: the updates it queued, and whether it returned
    or an exception escaped from it (a [TypeError] on reading a property
    of [undefined]).  Updates queued before the exception stay queued. *)
Inductive Outcome :=
| Returns (us : list Update)
| Throws (us : list Update).

Definition queued (o : Outcome) : list Update :=
  match o with
  | Returns us => us
  | Throws us => us
  end.

(** Sequencing of two parts of a handler body. *)
Definition andThen (o : Outcome) (k : Outcome) : Outcome :=
  match o with
  | Returns us =>
      match k with
      | Returns vs => Returns (us ++ vs)
      | Throws vs => Throws (us ++ vs)
      end
  | Throws us => Throws us
  end.

(** ** Collision *)

(** The condition of the inner [if] of [checkCollision]. *)
Definition collidesAt (b : Board) (newX newY : Z) : bool :=
  (newX <? 0) || (newX >=? BOARD_WIDTH) || (newY >=? BOARD_HEIGHT) ||
  ((newY >=? 0) &&
   match b !! Z.to_nat newY with
   | None => false
   | Some r => nonzero (elemAt r (Z.to_nat newX))
   end).

(** The inner [for] loop, from column [col] on; [true] is the early
    [return true]. *)
Fixpoint checkCollisionCols (b : Board) (x y : Z) (row : nat)
    (cells : list value) (col : nat) : bool :=
  match cells with
  | [] => false
  | v :: rest =>
      if nonzero v && collidesAt b (x + Z.of_nat col) (y + Z.of_nat row)
      then true
      else checkCollisionCols b x y row rest (S col)
  end.

(** The outer [for] loop, from row [row] on. *)
Fixpoint checkCollisionRows (b : Board) (x y : Z) (rows : Shape) (row : nat) : bool :=
  match rows with
  | [] => false
  | cells :: rest =>
      if checkCollisionCols b x y row cells 0
      then true
      else checkCollisionRows b x y rest (S row)
  end.

Definition checkCollision (b : Board) (x y : Z) (sh : Shape) : bool :=
  checkCollisionRows b x y sh 0.

Definition isValidMove (b : Board) (x y : Z) (sh : Shape) : bool :=
  negb (checkCollision b x y sh).

(** ** Spawning *)

(** [spawnNewPiece], run against the snapshot [s]; [randKey] is the
    outcome of the random draw.  [shape[0].length] throws when the shape
    has no first row (no catalogue entry is like that). *)
Definition spawnNewPiece (s : State) (randKey : Key.t) : Outcome :=
  let newTetromino := randomTetromino randKey in
  match shape newTetromino with
  | [] => Throws []
  | row0 :: _ =>
      let newPiece :=
        {| Piece.x := BOARD_WIDTH / 2 - Z.of_nat (length row0) / 2;
           Piece.y := 0;
           Piece.tetromino := newTetromino |} in
      if checkCollision (board s) (Piece.x newPiece) (Piece.y newPiece)
           (shape (Piece.tetromino newPiece))
      then Returns [setGameOver true]
      else Returns [setCurrentPiece (Some newPiece)]
  end.

(** ** Completed rows *)

(** [row.every((cell) => cell !== 0)] *)
Definition rowIsFull (row : list value) : bool := forallb nonzero row.

(** The [forEach] that collects the indices of the full rows, from row
    number [i] on. *)
Fixpoint collectCompleted (rows : Board) (i : nat) : list nat :=
  match rows with
  | [] => []
  | row :: rest =>
      if rowIsFull row
      then i :: collectCompleted rest (S i)
      else collectCompleted rest (S i)
  end.

(** [boardToCheck.filter((_, index) => !completedRowIndices.includes(index))],
    from row number [i] on. *)
Fixpoint filterRows (rows : Board) (indices : list nat) (i : nat) : Board :=
  match rows with
  | [] => []
  | row :: rest =>
      if bool_decide (i ∈ indices)
      then filterRows rest indices (S i)
      else row :: filterRows rest indices (S i)
  end.

(** [while (newBoard.length < BOARD_HEIGHT) newBoard.unshift(Array(BOARD_WIDTH).fill(0))] *)
Definition unshiftEmptyRows (newBoard : Board) : Board :=
  replicate (Z.to_nat BOARD_HEIGHT - length newBoard)%nat emptyRow ++ newBoard.

(** The body of the callback given to [setTimeout]: it reads only the
    variables captured in the task. *)
Definition clearCallback (task : ClearTask) : list Update :=
  let newBoard :=
    unshiftEmptyRows (filterRows (boardToCheck task) (completedRowIndices task) 0) in
  let newScore :=
    cl_score task + Z.of_nat (length (completedRowIndices task)) * 100 * cl_level task in
  [setBoard newBoard; setCompletedRows []; setScore newScore] ++
  (if newScore / 500 >? cl_level task - 1
   then [setLevelFn (fun prev => prev + 1);
         setDropTimeFn (fun prev => Qmult prev SPEED_INCREASE_FACTOR)]
   else []).

(** [checkCompletedRows(boardToCheck)]; [score] and [level] are those of
    the snapshot. *)
Definition checkCompletedRows (s : State) (toCheck : Board) : list Update :=
  let indices := collectCompleted toCheck 0 in
  if (0 <? length indices)%nat
  then [setCompletedRows indices;
        setTimeout {| boardToCheck := toCheck;
                      completedRowIndices := indices;
                      cl_score := score s;
                      cl_level := level s |}]
  else [].

(** ** Locking a piece *)

(** [row[i] = v] on a copy of the row: an index past the end extends the
    array, the skipped positions read as [undefined]. *)
Definition assign (row : list value) (i : nat) (v : value) : list value :=
  if decide (i < length row)%nat
  then <[i := v]> row
  else row ++ replicate (i - length row)%nat Undefined ++ [v].

(** [newBoard[boardY][boardX] = v]; [None] is the [TypeError] raised when
    [newBoard[boardY]] is [undefined]. *)
Definition writeCell (newBoard : Board) (boardY boardX : nat) (v : value) : option Board :=
  match newBoard !! boardY with
  | None => None
  | Some row => Some (<[boardY := assign row boardX v]> newBoard)
  end.

(** The inner [forEach] of [placePiece], from column [x] on. *)
Fixpoint placeCols (newBoard : Board) (p : Piece.t) (y : nat)
    (cells : list value) (x : nat) : option Board :=
  match cells with
  | [] => Some newBoard
  | v :: rest =>
      if nonzero v
      then
        let boardY := Z.of_nat y + Piece.y p in
        let boardX := Z.of_nat x + Piece.x p in
        if (boardY >=? 0) && (boardY <? BOARD_HEIGHT) &&
           (boardX >=? 0) && (boardX <? BOARD_WIDTH)
        then
          match writeCell newBoard (Z.to_nat boardY) (Z.to_nat boardX)
                  (Str (color (Piece.tetromino p))) with
          | None => None
          | Some newBoard' => placeCols newBoard' p y rest (S x)
          end
        else placeCols newBoard p y rest (S x)
      else placeCols newBoard p y rest (S x)
  end.

(** The outer [forEach] of [placePiece], from row [y] on. *)
Fixpoint placeRows (newBoard : Board) (p : Piece.t) (rows : Shape) (y : nat) : option Board :=
  match rows with
  | [] => Some newBoard
  | cells :: rest =>
      match placeCols newBoard p y cells 0 with
      | None => None
      | Some newBoard' => placeRows newBoard' p rest (S y)
      end
  end.

(** [placePiece]: [currentPiece], [board], [score] and [level] are those
    of the snapshot [s]; so is the board that [spawnNewPiece] tests. *)
Definition placePiece (s : State) (randKey : Key.t) : Outcome :=
  match currentPiece s with
  | None => Returns []
  | Some p =>
      match placeRows (board s) p (shape (Piece.tetromino p)) 0 with
      | None => Throws []
      | Some newBoard =>
          andThen (Returns (setBoard newBoard :: checkCompletedRows s newBoard))
                  (spawnNewPiece s randKey)
      end
  end.

(** ** Moves *)

Definition moveLeft (s : State) : Outcome :=
  match currentPiece s with
  | Some p =>
      if isValidMove (board s) (Piece.x p - 1) (Piece.y p) (shape (Piece.tetromino p))
      then Returns [setCurrentPieceFn (fun prev =>
             {| Piece.x := Piece.x prev - 1; Piece.y := Piece.y prev;
                Piece.tetromino := Piece.tetromino prev |})]
      else Returns []
  | None => Returns []
  end.

Definition moveRight (s : State) : Outcome :=
  match currentPiece s with
  | Some p =>
      if isValidMove (board s) (Piece.x p + 1) (Piece.y p) (shape (Piece.tetromino p))
      then Returns [setCurrentPieceFn (fun prev =>
             {| Piece.x := Piece.x prev + 1; Piece.y := Piece.y prev;
                Piece.tetromino := Piece.tetromino prev |})]
      else Returns []
  | None => Returns []
  end.

Definition moveDown (s : State) (randKey : Key.t) : Outcome :=
  match currentPiece s with
  | None => Returns []
  | Some p =>
      if isValidMove (board s) (Piece.x p) (Piece.y p + 1) (shape (Piece.tetromino p))
      then Returns [setCurrentPieceFn (fun prev =>
             {| Piece.x := Piece.x prev; Piece.y := Piece.y prev + 1;
                Piece.tetromino := Piece.tetromino prev |})]
      else placePiece s randKey
  end.

(** ** Rotation *)

(** [shape[0].map((_, i) => shape.map((row) => row[i]).reverse())];
    [None] is the [TypeError] raised when [shape[0]] is [undefined]. *)
Definition rotateShape (sh : Shape) : option Shape :=
  match sh with
  | [] => None
  | row0 :: _ =>
      Some ((fun i => reverse ((fun row => elemAt row i) <$> sh)) <$> seq 0 (length row0))
  end.

(** The functional update at the end of [rotate]. *)
Definition rotatedPiece (newX newY : Z) (rotated : Shape) (prev : Piece.t) : Piece.t :=
  {| Piece.x := newX;
     Piece.y := newY;
     Piece.tetromino :=
       {| shape := rotated;
          color := color (Piece.tetromino prev);
          name := name (Piece.tetromino prev) |} |}.

Definition rotate (s : State) : Outcome :=
  match currentPiece s with
  | None => Returns []
  | Some p =>
      match rotateShape (shape (Piece.tetromino p)) with
      | None => Throws []
      | Some rotated =>
          let newX := Piece.x p in
          let newY := Piece.y p in
          if negb (isValidMove (board s) newX newY rotated)
          then
            if isValidMove (board s) (newX - 1) newY rotated
            then Returns [setCurrentPieceFn (rotatedPiece (newX - 1) newY rotated)]
            else if isValidMove (board s) (newX + 1) newY rotated
            then Returns [setCurrentPieceFn (rotatedPiece (newX + 1) newY rotated)]
            else if isValidMove (board s) newX (newY - 1) rotated
            then Returns [setCurrentPieceFn (rotatedPiece newX (newY - 1) rotated)]
            else Returns []
          else Returns [setCurrentPieceFn (rotatedPiece newX newY rotated)]
      end
  end.

(** ** Hard drop *)

(** The [while] loop of [dropToBottom]; [None] when it is still running
    after [fuel] iterations. *)
Fixpoint dropLoop (fuel : nat) (b : Board) (x newY : Z) (sh : Shape) : option Z :=
  match fuel with
  | 0%nat => None
  | S fuel' =>
      if isValidMove b x (newY + 1) sh
      then dropLoop fuel' b x (newY + 1) sh
      else Some newY
  end.

(** [dropToBottom]: the update of [y] is queued, then [placePiece] runs
    in the same snapshot [s]. *)
Definition dropToBottom (fuel : nat) (s : State) (randKey : Key.t) : option Outcome :=
  match currentPiece s with
  | None => Some (Returns [])
  | Some p =>
      match dropLoop fuel (board s) (Piece.x p) (Piece.y p) (shape (Piece.tetromino p)) with
      | None => None
      | Some newY =>
          if negb (newY =? Piece.y p)
          then Some (andThen
                 (Returns [setCurrentPieceFn (fun prev =>
                    {| Piece.x := Piece.x prev; Piece.y := newY;
                       Piece.tetromino := Piece.tetromino prev |})])
                 (placePiece s randKey))
          else Some (Returns [])
      end
  end.

(** Iterations that always suffice for a piece with an occupied cell at
    a row index that is not negative: below the floor every position
    collides. *)
Definition dropFuel (p : Piece.t) : nat :=
  S (Z.to_nat (BOARD_HEIGHT - Piece.y p)).

(** ** Reset *)

(** [resetGame].  Its last statement, [clearInterval(dropInterval.current)],
    stops the fall timer, which the effect on [moveDown], [gameOver] and
    [dropTime] starts again after the next render; no pending timeout is
    touched. *)
Definition resetGame : list Update :=
  [setBoard createEmptyBoard;
   setCurrentPiece None;
   setScore 0;
   setGameOver false;
   setDropTime INITIAL_DROP_TIME;
   setLevel 1;
   setCompletedRows []].

(** ** Events *)

Inductive KeyName :=
| ArrowLeft | ArrowRight | ArrowDown | ArrowUp | Space | OtherKey.

(** Everything that can run engine code: a key, a touch button, a tick
    of the fall timer ([Interval], which runs [moveDown] while the game
    is not over), the oldest pending timeout, the effect that spawns a
    piece when there is none, and the reset button.  [randKey] is the
    random draw that is consumed if the event spawns a piece. *)
Inductive Command :=
| KeyPress (key : KeyName) (randKey : Key.t)
| TouchLeft
| TouchRight
| TouchRotate
| TouchDown (randKey : Key.t)
| Interval (randKey : Key.t)
| TimeoutFires
| SpawnEffect (randKey : Key.t)
| ResetButton.

(** [handleKeyPress] *)
Definition handleKeyPress (s : State) (key : KeyName) (randKey : Key.t) : option Outcome :=
  if gameOver s then Some (Returns [])
  else
    match key with
    | ArrowLeft => Some (moveLeft s)
    | ArrowRight => Some (moveRight s)
    | ArrowDown => Some (moveDown s randKey)
    | ArrowUp => Some (rotate s)
    | Space =>
        match currentPiece s with
        | None => Some (Returns [])
        | Some p => dropToBottom (dropFuel p) s randKey
        end
    | OtherKey => Some (Returns [])
    end.

(** The handler an event runs against the snapshot [s]; for
    [TimeoutFires] the callback is taken from the queue in [step]. *)
Definition handler (s : State) (c : Command) : option Outcome :=
  match c with
  | KeyPress key randKey => handleKeyPress s key randKey
  | TouchLeft => Some (if gameOver s then Returns [] else moveLeft s)
  | TouchRight => Some (if gameOver s then Returns [] else moveRight s)
  | TouchRotate => Some (if gameOver s then Returns [] else rotate s)
  | TouchDown randKey => Some (if gameOver s then Returns [] else moveDown s randKey)
  | Interval randKey => Some (if gameOver s then Returns [] else moveDown s randKey)
  | TimeoutFires => Some (Returns [])
  | SpawnEffect randKey =>
      Some (match currentPiece s with
            | None => if gameOver s then Returns [] else spawnNewPiece s randKey
            | Some _ => Returns []
            end)
  | ResetButton => Some (Returns resetGame)
  end.

(** One event: the handler runs on the current render's snapshot, then
    the queued updates are applied in order.  [None]: the handler does
    not terminate. *)
Definition step (w : World) (c : Command) : option World :=
  match c with
  | TimeoutFires =>
      match timeouts w with
      | [] => Some w
      | task :: rest =>
          Some (applyUpdates {| st := st w; timeouts := rest |} (clearCallback task))
      end
  | _ =>
      match handler (st w) c with
      | None => None
      | Some o => Some (applyUpdates w (queued o))
      end
  end.

Fixpoint run (w : World) (cs : list Command) : option World :=
  match cs with
  | [] => Some w
  | c :: rest =>
      match step w c with
      | None => None
      | Some w' => run w' rest
      end
  end.

(** The values given to [useState] on mount; nothing is scheduled. *)
Definition initialState : State :=
  {| board := createEmptyBoard;
     currentPiece := None;
     score := 0;
     gameOver := false;
     dropTime := INITIAL_DROP_TIME;
     level := 1;
     completedRows := [] |}.

Definition initialWorld : World := {| st := initialState; timeouts := [] |}.

(** ** Vocabulary of the statements *)

(** The state a handler's outcome leads to from the snapshot it ran on. *)
Definition stateAfter (s : State) (o : Outcome) : State :=
  foldl applyState s (queued o).

(** A board of 20 rows of 10 cells. *)
Definition wellFormed (b : Board) : Prop :=
  length b = Z.to_nat BOARD_HEIGHT /\
  Forall (fun row => length row = Z.to_nat BOARD_WIDTH) b.

(** The board cell in column [cx] of row [cy] exists and is not 0. *)
Definition occupied (b : Board) (cx cy : Z) : Prop :=
  0 <= cx /\ 0 <= cy /\
  exists row v, b !! Z.to_nat cy = Some row /\ row !! Z.to_nat cx = Some v /\ v <> Num 0.

(** Entry [(r, c)] of the shape matrix exists and is not 0. *)
Definition shapeCell (sh : Shape) (r c : nat) : Prop :=
  exists cells v, sh !! r = Some cells /\ cells !! c = Some v /\ v <> Num 0.

(** The cell in row [cy], column [cx] of a board, when it exists. *)
Definition cellAt (b : Board) (cy cx : nat) : option value :=
  match b !! cy with
  | None => None
  | Some row => row !! cx
  end.

(** The piece [p] has a nonzero shape entry that lands on column [cx] of
    row [cy]. *)
Definition covers (p : Piece.t) (cy cx : nat) : Prop :=
  exists r c, shapeCell (shape (Piece.tetromino p)) r c /\
    Z.of_nat cx = Z.of_nat c + Piece.x p /\ Z.of_nat cy = Z.of_nat r + Piece.y p.

(** [paints ink P b b']: [b'] is [b] with [ink] in the cells selected
    by [P] that lie on the board, and is again a 20 x 10 board. *)
Definition paints (ink : value) (P : nat -> nat -> Prop) (b b' : Board) : Prop :=
  wellFormed b' /\
  (forall cy cx, (cy < 20)%nat -> (cx < 10)%nat -> P cy cx ->
     cellAt b' cy cx = Some ink) /\
  (forall cy cx, cellAt b' cy cx = cellAt b cy cx \/
     (cellAt b' cy cx = Some ink /\ P cy cx)).

(** Cells hit by the entries of one shape row of the piece [p], counted
    from column [x0] of the shape, and by the rows of a shape, counted
    from row [y0]. *)
Definition hitsCols (p : Piece.t) (cells : list value) (y x0 : nat) (cy cx : nat) : Prop :=
  exists c v, cells !! c = Some v /\ v <> Num 0 /\
    Z.of_nat cx = Z.of_nat (x0 + c) + Piece.x p /\
    Z.of_nat cy = Z.of_nat y + Piece.y p.

Definition hitsRows (p : Piece.t) (rows : Shape) (y0 : nat) (cy cx : nat) : Prop :=
  exists r c, shapeCell rows r c /\
    Z.of_nat cx = Z.of_nat c + Piece.x p /\
    Z.of_nat cy = Z.of_nat (y0 + r) + Piece.y p.

(** All rows of a matrix are as long as its first row. *)
Definition rectangular (sh : Shape) : Prop :=
  match sh with
  | [] => True
  | row0 :: _ => Forall (fun row => length row = length row0) sh
  end.

(** Matrix transposition, by the textbook recursion on the rows: the
    first row becomes the first column. *)
Fixpoint transpose (m : Shape) : Shape :=
  match m with
  | [] => []
  | row :: rest =>
      match rest with
      | [] => (fun v => [v]) <$> row
      | _ :: _ => zip_with cons row (transpose rest)
      end
  end.

(** "Transpose, then reverse each resulting row". *)
Definition rotateClockwise (m : Shape) : Shape := reverse <$> transpose m.

(** The origins [rotate] tries, in order. *)
Definition rotationCandidates (x y : Z) : list (Z * Z) :=
  [(x, y); (x - 1, y); (x + 1, y); (x, y - 1)].

(** The result of the four-way search in [rotate], as a search through
    the list of candidates. *)
Definition firstValid (b : Board) (rotated : Shape) (cands : list (Z * Z)) : option (Z * Z) :=
  find (fun c => isValidMove b (fst c) (snd c) rotated) cands.

(** Number of entries of the first row of a shape. *)
Definition shapeWidth (sh : Shape) : nat :=
  match sh with
  | [] => 0
  | row0 :: _ => length row0
  end.

(** ** Well-formed sessions *)

(** A shape as the catalogue and [rotate] produce them: a non-empty
    rectangular matrix with at least one column and one nonzero entry. *)
Definition shapeOk (sh : Shape) : Prop :=
  sh <> [] /\ rectangular sh /\ (0 < shapeWidth sh)%nat /\
  exists r c, shapeCell sh r c.

Definition stateOk (s : State) : Prop :=
  wellFormed (board s) /\
  forall p, currentPiece s = Some p -> shapeOk (shape (Piece.tetromino p)).

Definition worldOk (w : World) : Prop :=
  stateOk (st w) /\
  Forall (fun task => wellFormed (boardToCheck task)) (timeouts w).

(** An update that keeps a session well formed. *)
Definition okUpdate (u : Update) : Prop :=
  match u with
  | setBoard b => wellFormed b
  | setCurrentPiece p => forall q, p = Some q -> shapeOk (shape (Piece.tetromino q))
  | setCurrentPieceFn f =>
      forall q, shapeOk (shape (Piece.tetromino q)) ->
                shapeOk (shape (Piece.tetromino (f q)))
  | setTimeout task => wellFormed (boardToCheck task)
  | _ => True
  end.

(** An update that cannot lower the level, clear the game-over flag or
    raise the drop interval.  Nothing is required of [setScore]. *)
Definition tame (u : Update) : Prop :=
  match u with
  | setGameOver g => g = true
  | setLevelFn f => forall n, n <= f n
  | setDropTimeFn f => forall q, (0 <= q)%Q -> (0 <= f q)%Q /\ (f q <= q)%Q
  | setLevel _ | setDropTime _ => False
  | _ => True
  end.

(** An update that leaves the score alone. *)
Definition keepsScore (u : Update) : Prop :=
  match u with
  | setScore _ => False
  | _ => True
  end.

(** The updates queued by everything except [resetGame] and the
    deferred callback are tame and leave the score alone. *)
Definition quiet (u : Update) : Prop := tame u /\ keepsScore u.

(** What an observer reads off the state after a sequence of events
    from the initial world, and the callbacks then pending. *)
Definition observe {A : Type} (f : State -> A) (cs : list Command) : option A :=
  match run initialWorld cs with
  | None => None
  | Some w => Some (f (st w))
  end.

Definition pendingAfter (cs : list Command) : option (list ClearTask) :=
  match run initialWorld cs with
  | None => None
  | Some w => Some (timeouts w)
  end.

(** Of each pending callback: the number of rows it removes and the
    score and level it captured. *)
Definition pendingSummary (cs : list Command) : option (list (nat * Z * Z)) :=
  match pendingAfter cs with
  | None => None
  | Some tasks =>
      Some (map (fun task =>
                   (length (completedRowIndices task), cl_score task, cl_level task))
              tasks)
  end.

(** ** Event sequences used by the examples *)

(** Keyboard events that bring the falling piece into place and lock
    it: rotations, then sideways moves, then [downs] presses of the down
    arrow, the last of which locks.  [next] is the piece drawn by the
    spawn that follows the lock. *)
Definition play (rotations : nat) (shift : Z) (downs : nat) (next : Key.t) : list Command :=
  replicate rotations (KeyPress ArrowUp next) ++
  replicate (Z.to_nat (Z.abs shift))
    (KeyPress (if shift <? 0 then ArrowLeft else ArrowRight) next) ++
  replicate downs (KeyPress ArrowDown next).

(** Two flat I pieces on the bottom row, then an O piece that completes
    it; the O piece locks last and schedules the row removal. *)
Definition completeBottomRow : list Command :=
  [SpawnEffect Key.I] ++
  play 0 (-3) 20 Key.I ++
  play 0 1 20 Key.O ++
  play 0 4 19 Key.I.

(** After [completeBottomRow], a second piece (a flat I) is locked
    before the pending removal fires. *)
Definition lockWhilePending : list Command :=
  completeBottomRow ++ play 0 0 19 Key.T.

(** Four rows cleared one after the other, each removal firing before
    the next lock: I, I and O complete row 19 and leave two cells of the
    O behind; the next two I pieces complete row 19 again and leave the
    board empty.  The score is then 400, at level 1. *)
Definition fourClears : list Command :=
  let withO := play 0 (-3) 20 Key.I ++ play 0 1 20 Key.O ++ play 0 4 19 Key.I in
  let withoutO := play 0 (-3) 20 Key.I ++ play 0 1 20 Key.I in
  [SpawnEffect Key.I] ++
  withO ++ [TimeoutFires] ++ withoutO ++ [TimeoutFires] ++
  withO ++ [TimeoutFires] ++ withoutO ++ [TimeoutFires].

(** After [fourClears], row 19 is completed a fifth time and the next
    piece is hard-dropped before the removal fires. *)
Definition fifthClearAndDrop : list Command :=
  fourClears ++
  play 0 (-3) 20 Key.I ++ play 0 1 20 Key.O ++ play 0 4 19 Key.I ++
  [KeyPress Space Key.T].

(** Ten O pieces dropped straight down: a tower in columns 4 and 5 that
    reaches row 0.  The tenth piece cannot move and locks where it
    spawned. *)
Definition towerOfO : list Command :=
  [SpawnEffect Key.O] ++
  concat (map (fun k => play 0 0 (21 - 2 * k) Key.O) (seq 1 10)).

(** A stack with rows 17 and 18 full except for columns 8 and 9 and row
    19 full except for column 9. *)
Definition buildStack : list Command :=
  [SpawnEffect Key.I] ++
  play 0 (-2) 20 Key.I ++
  play 0 2 20 Key.I ++
  play 1 (-3) 17 Key.I ++
  play 0 (-2) 19 Key.I ++
  play 0 (-2) 18 Key.L ++
  play 0 1 18 Key.O ++
  play 0 1 17 Key.I.

(** An upright I in column 9 completes row 19 (first removal pending);
    an upright I in column 8 completes rows 17 and 18 while row 19 is
    still there (second removal pending); the first callback fires; an
    upright S completes one row of the board that callback installed
    (third removal pending); the second callback fires. *)
Definition threeClears : list Command :=
  buildStack ++
  play 1 6 17 Key.I ++
  play 1 5 16 Key.S ++
  [TimeoutFires] ++
  play 1 3 17 Key.O ++
  [TimeoutFires].

(** ** Rendering *)

(** The board that [renderBoard] draws: a copy of the board with the
    active piece written over it.  Its two [forEach] loops are those of
    [placePiece], run on the copy [displayBoard]; [None] is the
    [TypeError] of a write into a row that is not there. *)
Definition displayBoard (s : State) : option Board :=
  match currentPiece s with
  | None => Some (board s)
  | Some p => placeRows (board s) p (shape (Piece.tetromino p)) 0
  end.

(** ** More vocabulary *)

(** [shape[i][j]], [undefined] when it is not there. *)
Definition entry (sh : Shape) (i j : nat) : value :=
  elemAt (default [] (sh !! i)) j.

(** A matrix of [R] rows of [C] entries. *)
Definition isMatrix (R C : nat) (sh : Shape) : Prop :=
  length sh = R /\ Forall (fun row => length row = C) sh.

(** [n] successive quarter turns; [None] when one of them throws. *)
Fixpoint rotateTimes (n : nat) (sh : Shape) : option Shape :=
  match n with
  | 0%nat => Some sh
  | S n' =>
      match rotateShape sh with
      | None => None
      | Some rotated => rotateTimes n' rotated
      end
  end.



(** Events that come from the player or from the fall timer or the
    spawn effect: everything but a timeout that fires and the reset
    button. *)
Definition playEvent (c : Command) : bool :=
  match c with
  | TimeoutFires | ResetButton => false
  | _ => true
  end.

(** Events that act on the active piece: keys, touch buttons, ticks of
    the fall timer. *)
Definition pieceEvent (c : Command) : bool :=
  match c with
  | TimeoutFires | ResetButton | SpawnEffect _ => false
  | _ => true
  end.

(** A score and level as the scoring produces them. *)
Definition scoreOk (n lvl : Z) : Prop := 0 <= n /\ 1 <= lvl.

(** Score, level and drop interval of a session, and the scores and
    levels held by its pending callbacks, are in range. *)
Definition countersOk (w : World) : Prop :=
  scoreOk (score (st w)) (level (st w)) /\
  Forall (fun task => scoreOk (cl_score task) (cl_level task)) (timeouts w) /\
  (0 <= dropTime (st w))%Q /\ (dropTime (st w) <= INITIAL_DROP_TIME)%Q.

(** A timeout scheduled from the snapshot [s] holds its score and
    level. *)
Definition capturesFrom (s : State) (u : Update) : Prop :=
  match u with
  | setTimeout task => cl_score task = score s /\ cl_level task = level s
  | _ => True
  end.

(** What a handler that only moves or turns the piece queues: nothing,
    or one update of the active piece to a placement that does not
    collide with the board of the snapshot. *)
Definition movesTo (s : State) (us : list Update) : Prop :=
  us = [] \/
  exists f, us = [setCurrentPieceFn f] /\
    forall p, currentPiece s = Some p ->
      checkCollision (board s) (Piece.x (f p)) (Piece.y (f p))
        (shape (Piece.tetromino (f p))) = false.

(** The timeouts that a list of updates schedules, in order. *)
Definition scheduled (us : list Update) : list ClearTask :=
  omap (fun u => match u with
                 | setTimeout task => Some task
                 | _ => None
                 end) us.

(** * Properties *)

Lemma nonzero_true (v : value) : nonzero v = true <-> v <> Num 0.
Proof.
  destruct v as [n | s |]; simpl; try (split; [discriminate | reflexivity]).
  destruct n; simpl; split; intros H; try reflexivity; try discriminate;
    congruence.
Qed.

Lemma nonzero_false (v : value) : nonzero v = false <-> v = Num 0.
Proof.
  rewrite <- Bool.not_true_iff_false, nonzero_true.
  destruct v as [[| q | q] | s |]; split; intros H; try congruence;
    try (exfalso; apply H; discriminate).
Qed.

(** ** Collision *)

Section Collision.
Variable b : Board.
Variables x y : Z.

Lemma checkCollisionCols_true (row : nat) (cells : list value) (col : nat) :
  checkCollisionCols b x y row cells col = true <->
  exists c v, cells !! c = Some v /\ v <> Num 0 /\
    collidesAt b (x + Z.of_nat (col + c)) (y + Z.of_nat row) = true.
Proof.
  revert col. induction cells as [| v rest IH]; intros col; simpl.
  - split; [discriminate | intros (c & v & Hc & _); discriminate].
  - destruct (nonzero v && collidesAt b (x + Z.of_nat col) (y + Z.of_nat row)) eqn:E.
    + apply andb_true_iff in E as [Hv Hhit]. split; [intros _ | reflexivity].
      exists 0%nat, v. rewrite Nat.add_0_r. rewrite nonzero_true in Hv. auto.
    + rewrite IH. split.
      * intros (c & w & Hc & Hw & Hhit). exists (S c), w.
        simpl. replace (col + S c)%nat with (S col + c)%nat by lia. auto.
      * intros ([| c] & w & Hc & Hw & Hhit); simpl in Hc.
        -- injection Hc as <-. rewrite Nat.add_0_r in Hhit.
           apply nonzero_true in Hw. rewrite Hw, Hhit in E. discriminate.
        -- exists c, w. replace (S col + c)%nat with (col + S c)%nat by lia. auto.
Qed.

Lemma checkCollisionRows_true (rows : Shape) (row : nat) :
  checkCollisionRows b x y rows row = true <->
  exists r c, shapeCell rows r c /\
    collidesAt b (x + Z.of_nat c) (y + Z.of_nat (row + r)) = true.
Proof.
  revert row. induction rows as [| cells rest IH]; intros row; simpl.
  - split; [discriminate | intros (r & c & (cs & v & Hr & _) & _); discriminate].
  - destruct (checkCollisionCols b x y row cells 0) eqn:E.
    + split; [intros _ | reflexivity].
      apply checkCollisionCols_true in E as (c & v & Hc & Hv & Hhit).
      exists 0%nat, c. rewrite Nat.add_0_r. split; [| exact Hhit].
      exists cells, v. auto.
    + rewrite IH. split.
      * intros (r & c & (cs & v & Hr & Hc & Hv) & Hhit).
        exists (S r), c. split; [exists cs, v; auto |].
        replace (row + S r)%nat with (S row + r)%nat by lia. exact Hhit.
      * intros ([| r] & c & (cs & v & Hr & Hc & Hv) & Hhit); simpl in Hr.
        -- injection Hr as <-. rewrite Nat.add_0_r in Hhit.
           assert (checkCollisionCols b x y row cells 0 = true) as E'.
           { apply checkCollisionCols_true. exists c, v. auto. }
           rewrite E' in E. discriminate.
        -- exists r, c. split; [exists cs, v; auto |].
           replace (S row + r)%nat with (row + S r)%nat by lia. exact Hhit.
Qed.

Lemma checkCollision_true (sh : Shape) :
  checkCollision b x y sh = true <->
  exists r c, shapeCell sh r c /\
    collidesAt b (x + Z.of_nat c) (y + Z.of_nat r) = true.
Proof. unfold checkCollision. rewrite checkCollisionRows_true. reflexivity. Qed.

End Collision.

Lemma collidesAt_true (b : Board) (newX newY : Z) :
  wellFormed b ->
  collidesAt b newX newY = true <->
  newX < 0 \/ newX >= BOARD_WIDTH \/ newY >= BOARD_HEIGHT \/
  (newY >= 0 /\ occupied b newX newY).
Proof.
  intros [Hlen Hrows]. unfold collidesAt, occupied, BOARD_WIDTH, BOARD_HEIGHT in *.
  destruct (Z.ltb_spec newX 0); simpl; [split; [lia | reflexivity] |].
  destruct (Z.geb_spec newX 10); simpl; [split; [lia | reflexivity] |].
  destruct (Z.geb_spec newY 20); simpl; [split; [lia | reflexivity] |].
  destruct (Z.geb_spec newY 0); simpl.
  - destruct (lookup_lt_is_Some_2 b (Z.to_nat newY)) as [row Hrow]; [lia |].
    rewrite Hrow.
    assert (length row = 10%nat) as Hw.
    { rewrite Forall_forall in Hrows. apply Hrows.
      apply list_elem_of_lookup. eauto. }
    destruct (lookup_lt_is_Some_2 row (Z.to_nat newX)) as [v Hv]; [lia |].
    unfold elemAt. rewrite Hv. simpl. rewrite nonzero_true. split.
    + intros Hnz. do 3 right. repeat split; try lia. exists row, v. auto.
    + intros [? | [? | [? | (_ & _ & _ & row' & v' & Hr' & Hv' & Hnz)]]]; try lia.
      injection Hr' as <-. rewrite Hv in Hv'. congruence.
  - split; [discriminate | lia].
Qed.

(** C1.  On a 20 x 10 board, [checkCollision x y shape] is true exactly
    when some nonzero entry (r, c) of the shape lands on a position
    (x + c, y + r) that is left of the board, right of it, below it, or
    that has a row index that is not negative and an occupied board
    cell.  A position above the board in a column of the board is never
    a collision. *)
Theorem checkCollision_spec (b : Board) (x y : Z) (sh : Shape) :
  wellFormed b ->
  (checkCollision b x y sh = true <->
   exists r c, shapeCell sh r c /\
     (x + Z.of_nat c < 0 \/ x + Z.of_nat c >= 10 \/ y + Z.of_nat r >= 20 \/
      (y + Z.of_nat r >= 0 /\ occupied b (x + Z.of_nat c) (y + Z.of_nat r)))) /\
  (forall r c : nat,
     y + Z.of_nat r < 0 -> 0 <= x + Z.of_nat c < 10 ->
     collidesAt b (x + Z.of_nat c) (y + Z.of_nat r) = false).
Proof.
  intros Hwf. split.
  - rewrite checkCollision_true. split.
    + intros (r & c & Hcell & Hhit). exists r, c. split; [exact Hcell |].
      apply (collidesAt_true b _ _ Hwf) in Hhit. exact Hhit.
    + intros (r & c & Hcell & Hhit). exists r, c. split; [exact Hcell |].
      apply (collidesAt_true b _ _ Hwf). exact Hhit.
  - intros r c Hy Hx. apply Bool.not_true_iff_false. intros Hhit.
    apply (collidesAt_true b _ _ Hwf) in Hhit. unfold BOARD_WIDTH, BOARD_HEIGHT in Hhit.
    lia.
Qed.

Lemma wellFormed_createEmptyBoard : wellFormed createEmptyBoard.
Proof. split; [reflexivity |]. vm_compute. repeat constructor. Qed.

Lemma checkCollision_spec_witness :
  wellFormed createEmptyBoard /\
  ((checkCollision createEmptyBoard 9 0 [[Num 1; Num 1]; [Num 1; Num 1]] = true <->
    exists r c, shapeCell [[Num 1; Num 1]; [Num 1; Num 1]] r c /\
      (9 + Z.of_nat c < 0 \/ 9 + Z.of_nat c >= 10 \/ 0 + Z.of_nat r >= 20 \/
       (0 + Z.of_nat r >= 0 /\
        occupied createEmptyBoard (9 + Z.of_nat c) (0 + Z.of_nat r)))) /\
   (forall r c : nat,
      0 + Z.of_nat r < 0 -> 0 <= 9 + Z.of_nat c < 10 ->
      collidesAt createEmptyBoard (9 + Z.of_nat c) (0 + Z.of_nat r) = false)).
Proof.
  split.
  - exact wellFormed_createEmptyBoard.
  - exact (checkCollision_spec createEmptyBoard 9 0 [[Num 1; Num 1]; [Num 1; Num 1]]
             wellFormed_createEmptyBoard).
Defined.

(** ** Rotation *)

Lemma elemAt_seq (row : list value) :
  (fun i => elemAt row i) <$> seq 0 (length row) = row.
Proof.
  induction row as [| v row IH]; simpl; [reflexivity |].
  f_equal. rewrite <- fmap_S_seq, <- list_fmap_compose. exact IH.
Qed.

Lemma fmap_elemAt_seq {A} (f : value -> A) (row : list value) :
  (fun i => f (elemAt row i)) <$> seq 0 (length row) = f <$> row.
Proof.
  pose proof (f_equal (fmap f) (elemAt_seq row)) as H.
  rewrite <- list_fmap_compose in H. exact H.
Qed.

(** Reading the columns of a rectangular matrix one after the other
    gives its transpose. *)
Lemma columns_transpose (sh : Shape) (w : nat) :
  sh <> [] -> Forall (fun row => length row = w) sh ->
  (fun i => (fun row => elemAt row i) <$> sh) <$> seq 0 w = transpose sh.
Proof.
  induction sh as [| row rest IH]; intros Hne Hrect; [congruence |].
  apply Forall_cons in Hrect as [Hrow Hrest].
  destruct rest as [| row2 rest].
  - simpl. subst w. apply (fmap_elemAt_seq (fun v => [v])).
  - change (transpose (row :: row2 :: rest))
      with (zip_with cons row (transpose (row2 :: rest))).
    rewrite <- IH by (congruence || assumption).
    subst w.
    assert (forall cols : Shape,
              zip_with cons row cols =
              zip_with cons ((fun i => elemAt row i) <$> seq 0 (length row)) cols) as E
      by (intros cols; rewrite elemAt_seq; reflexivity).
    rewrite E, zip_with_fmap_l, zip_with_fmap_r, zip_with_diag. reflexivity.
Qed.

Lemma rotateShape_clockwise (sh : Shape) :
  sh <> [] -> rectangular sh -> rotateShape sh = Some (rotateClockwise sh).
Proof.
  intros Hne Hrect. destruct sh as [| row0 rest]; [congruence |].
  unfold rotateShape, rotateClockwise. f_equal.
  rewrite <- (columns_transpose (row0 :: rest) (length row0) Hne Hrect).
  rewrite <- list_fmap_compose. reflexivity.
Qed.

(** Entry (i, j) of the rotated matrix is entry (R - 1 - j, i) of the
    original, R being the number of rows: a quarter turn clockwise. *)
Lemma rotateShape_entry (sh rotated : Shape) (i j : nat) :
  rotateShape sh = Some rotated ->
  (i < shapeWidth sh)%nat -> (j < length sh)%nat ->
  exists cells,
    rotated !! i = Some cells /\
    cells !! j = Some (elemAt (default [] (sh !! (length sh - S j)%nat)) i).
Proof.
  intros Hrot Hi Hj. destruct sh as [| row0 rest]; [discriminate |].
  injection Hrot as <-. simpl in Hi.
  exists (reverse ((fun row => elemAt row i) <$> row0 :: rest)). split.
  - rewrite list_lookup_fmap, lookup_seq_lt by exact Hi. reflexivity.
  - rewrite reverse_lookup by (rewrite length_fmap; exact Hj).
    rewrite length_fmap, list_lookup_fmap.
    destruct (lookup_lt_is_Some_2 (row0 :: rest) (length (row0 :: rest) - S j))
      as [row Hrow]; [simpl; lia |].
    rewrite Hrow. reflexivity.
Qed.

Lemma rotate_search (s : State) (p : Piece.t) (rotated : Shape) :
  currentPiece s = Some p ->
  rotateShape (shape (Piece.tetromino p)) = Some rotated ->
  rotate s =
    match firstValid (board s) rotated (rotationCandidates (Piece.x p) (Piece.y p)) with
    | Some c => Returns [setCurrentPieceFn (rotatedPiece (fst c) (snd c) rotated)]
    | None => Returns []
    end.
Proof.
  intros Hp Hrot. unfold rotate, firstValid, rotationCandidates.
  rewrite Hp, Hrot. simpl.
  destruct (isValidMove (board s) (Piece.x p) (Piece.y p) rotated); simpl;
    [reflexivity |].
  destruct (isValidMove (board s) (Piece.x p - 1) (Piece.y p) rotated); simpl;
    [reflexivity |].
  destruct (isValidMove (board s) (Piece.x p + 1) (Piece.y p) rotated); simpl;
    [reflexivity |].
  destruct (isValidMove (board s) (Piece.x p) (Piece.y p - 1) rotated); reflexivity.
Qed.

(** C2.  For an active piece with a rectangular, non-empty shape,
    [rotate] returns without an exception.  If some candidate origin
    among (x, y), (x - 1, y), (x + 1, y), (x, y - 1) is valid for the
    shape turned a quarter clockwise (transposed, each row reversed),
    the active piece gets that shape and the first such origin, and
    nothing else changes; if none is valid, no update is queued and the
    state is the same. *)
Theorem rotate_spec (s : State) (p : Piece.t) :
  currentPiece s = Some p ->
  shape (Piece.tetromino p) <> [] ->
  rectangular (shape (Piece.tetromino p)) ->
  let rotated := rotateClockwise (shape (Piece.tetromino p)) in
  (exists us, rotate s = Returns us) /\
  match firstValid (board s) rotated (rotationCandidates (Piece.x p) (Piece.y p)) with
  | Some c =>
      stateAfter s (rotate s) =
      applyState s (setCurrentPiece (Some
        {| Piece.x := fst c;
           Piece.y := snd c;
           Piece.tetromino :=
             {| shape := rotated;
                color := color (Piece.tetromino p);
                name := name (Piece.tetromino p) |} |}))
  | None => rotate s = Returns [] /\ stateAfter s (rotate s) = s
  end.
Proof.
  intros Hp Hne Hrect rotated.
  pose proof (rotateShape_clockwise _ Hne Hrect) as Hrot. fold rotated in Hrot.
  rewrite (rotate_search s p rotated Hp Hrot).
  destruct (firstValid (board s) rotated (rotationCandidates (Piece.x p) (Piece.y p)))
    as [c |].
  - split; [eauto |]. unfold stateAfter. simpl. rewrite Hp. reflexivity.
  - split; [eauto |]. split; reflexivity.
Qed.

Lemma rotate_spec_witness :
  let s := applyState initialState (setCurrentPiece (Some
             {| Piece.x := 9; Piece.y := 5; Piece.tetromino := randomTetromino Key.I |})) in
  stateAfter s (rotate s) =
  applyState s (setCurrentPiece (Some
    {| Piece.x := 9; Piece.y := 5;
       Piece.tetromino :=
         {| shape := [[Num 1]; [Num 1]; [Num 1]; [Num 1]];
            color := "bg-cyan-500"; name := "I" |} |})).
Proof.
  intros s.
  refine (proj2 (rotate_spec s
            {| Piece.x := 9; Piece.y := 5; Piece.tetromino := randomTetromino Key.I |}
            _ _ _)).
  - reflexivity.
  - discriminate.
  - simpl. repeat constructor.
Defined.

(** One call of [rotate] never touches the board, and either changes
    nothing or leaves a piece that does not collide. *)
Lemma rotate_outcome (s : State) :
  let s' := stateAfter s (rotate s) in
  s' = s \/
  (board s' = board s /\
   exists q, currentPiece s' = Some q /\
     checkCollision (board s') (Piece.x q) (Piece.y q) (shape (Piece.tetromino q)) = false).
Proof.
  unfold rotate. destruct (currentPiece s) as [p |] eqn:Hp; [| left; reflexivity].
  destruct (rotateShape (shape (Piece.tetromino p))) as [rotated |];
    [| left; reflexivity].
  assert (forall nx ny,
            isValidMove (board s) nx ny rotated = true ->
            let s' := stateAfter s (Returns [setCurrentPieceFn (rotatedPiece nx ny rotated)]) in
            board s' = board s /\
            exists q, currentPiece s' = Some q /\
              checkCollision (board s') (Piece.x q) (Piece.y q)
                (shape (Piece.tetromino q)) = false) as Hok.
  { intros nx ny Hvalid. unfold stateAfter. simpl. split; [reflexivity |].
    rewrite Hp. eexists. split; [reflexivity |]. simpl.
    unfold isValidMove in Hvalid. apply negb_true_iff in Hvalid. exact Hvalid. }
  simpl.
  destruct (isValidMove (board s) (Piece.x p) (Piece.y p) rotated) eqn:E0; simpl;
    [right; apply Hok; exact E0 |].
  destruct (isValidMove (board s) (Piece.x p - 1) (Piece.y p) rotated) eqn:E1;
    [right; apply Hok; exact E1 |].
  destruct (isValidMove (board s) (Piece.x p + 1) (Piece.y p) rotated) eqn:E2;
    [right; apply Hok; exact E2 |].
  destruct (isValidMove (board s) (Piece.x p) (Piece.y p - 1) rotated) eqn:E3;
    [right; apply Hok; exact E3 |].
  left. reflexivity.
Qed.

(** C9.  From a state whose active piece does not collide, two calls of
    [rotate] in a row leave either the very same state, or the same
    board with an active piece that does not collide with it. *)
Theorem rotate_twice (s : State) (p : Piece.t) :
  currentPiece s = Some p ->
  checkCollision (board s) (Piece.x p) (Piece.y p) (shape (Piece.tetromino p)) = false ->
  let s1 := stateAfter s (rotate s) in
  let s2 := stateAfter s1 (rotate s1) in
  s2 = s \/
  (board s2 = board s /\
   exists q, currentPiece s2 = Some q /\
     checkCollision (board s2) (Piece.x q) (Piece.y q) (shape (Piece.tetromino q)) = false).
Proof.
  intros Hp Hfree s1 s2.
  destruct (rotate_outcome s1) as [Hsame2 | [Hb2 Hq2]]; fold s2 in Hsame2 || fold s2 in Hb2, Hq2.
  - destruct (rotate_outcome s) as [Hsame1 | [Hb1 Hq1]]; fold s1 in Hsame1 || fold s1 in Hb1, Hq1.
    + left. congruence.
    + right. rewrite Hsame2. auto.
  - right. split; [| exact Hq2].
    destruct (rotate_outcome s) as [Hsame1 | [Hb1 _]]; fold s1 in Hsame1 || fold s1 in Hb1;
      congruence.
Qed.

Lemma rotate_twice_witness :
  let s := applyState initialState (setCurrentPiece (Some
             {| Piece.x := 4; Piece.y := 0; Piece.tetromino := randomTetromino Key.T |})) in
  let s1 := stateAfter s (rotate s) in
  let s2 := stateAfter s1 (rotate s1) in
  s2 = s \/
  (board s2 = board s /\
   exists q, currentPiece s2 = Some q /\
     checkCollision (board s2) (Piece.x q) (Piece.y q) (shape (Piece.tetromino q)) = false).
Proof.
  intros s.
  apply (rotate_twice s
           {| Piece.x := 4; Piece.y := 0; Piece.tetromino := randomTetromino Key.T |}).
  - reflexivity.
  - vm_compute. reflexivity.
Defined.

(** ** Spawning *)

(** [spawnNewPiece] places the drawn piece at column
    floor(10 / 2) - floor(width / 2) and row 0, and tests that placement
    against the board of the snapshot it runs in: on a collision its
    only update is [setGameOver(true)], otherwise its only update makes
    the new piece the active piece. *)
Lemma spawnNewPiece_on_snapshot (s : State) (randKey : Key.t) :
  let t := randomTetromino randKey in
  let newPiece :=
    {| Piece.x := 10 / 2 - Z.of_nat (shapeWidth (shape t)) / 2;
       Piece.y := 0;
       Piece.tetromino := t |} in
  let s' := stateAfter s (spawnNewPiece s randKey) in
  if checkCollision (board s) (Piece.x newPiece) (Piece.y newPiece) (shape t)
  then spawnNewPiece s randKey = Returns [setGameOver true] /\
       gameOver s' = true /\ currentPiece s' = currentPiece s
  else spawnNewPiece s randKey = Returns [setCurrentPiece (Some newPiece)] /\
       currentPiece s' = Some newPiece /\ gameOver s' = gameOver s.
Proof.
  destruct randKey; unfold spawnNewPiece, stateAfter, BOARD_WIDTH; simpl;
    match goal with
    | |- context [checkCollision ?b ?x ?y ?sh] =>
        destruct (checkCollision b x y sh)
    end; simpl; repeat split; reflexivity.
Qed.

(** C6 (the code departs from the claim).  Ten O pieces are dropped
    straight down with the down arrow; the tenth cannot move and locks
    where it spawned, in rows 0 and 1 of columns 4 and 5.  The spawn
    that [placePiece] then makes puts the next O at column 4, row 0, on
    top of the cells just locked: that position collides with the board
    that is installed, yet the flag is not set and the piece is made the
    active piece.  [spawnNewPiece] run on the state as it then is, as the
    spawn effect runs it, sets the flag; the lock-and-spawn path sets it
    one lock later. *)
Theorem spawn_after_lock_misses_collision :
  let p := {| Piece.x := 4; Piece.y := 0; Piece.tetromino := randomTetromino Key.O |} in
  let yellow := Some (Str "bg-yellow-500") in
  observe (fun s => (cellAt (board s) 0 4, cellAt (board s) 0 5,
                     cellAt (board s) 1 4, cellAt (board s) 1 5)) towerOfO =
    Some (yellow, yellow, yellow, yellow) /\
  observe currentPiece towerOfO = Some (Some p) /\
  observe (fun s => checkCollision (board s) (Piece.x p) (Piece.y p)
                      (shape (Piece.tetromino p))) towerOfO = Some true /\
  observe gameOver towerOfO = Some false /\
  observe (fun s => spawnNewPiece s Key.O) towerOfO = Some (Returns [setGameOver true]) /\
  observe gameOver (towerOfO ++ [KeyPress ArrowDown Key.O]) = Some true.
Proof.
  intros p yellow.
  repeat match goal with
         | |- _ /\ _ => split
         end;
  (vm_compute; reflexivity).
Qed.

(** ** Removing completed rows *)

Lemma collectCompleted_ge (rows : Board) (i j : nat) :
  j ∈ collectCompleted rows i -> (i <= j)%nat.
Proof.
  revert i. induction rows as [| row rest IH]; intros i; simpl.
  - intros H. inversion H.
  - destruct (rowIsFull row).
    + intros [-> | H]%elem_of_cons; [lia |]. apply IH in H. lia.
    + intros H. apply IH in H. lia.
Qed.

(** Filtering by the collected indices is filtering by fullness. *)
Lemma filterRows_collect (rows : Board) (i : nat) (earlier : list nat) :
  (forall j, j ∈ earlier -> (j < i)%nat) ->
  filterRows rows (earlier ++ collectCompleted rows i) i =
  filter (fun row => rowIsFull row = false) rows.
Proof.
  revert i earlier. induction rows as [| row rest IH]; intros i earlier Hlt; simpl;
    [reflexivity |].
  destruct (rowIsFull row) eqn:Hfull.
  - rewrite bool_decide_eq_true_2 by (apply elem_of_app; right; left).
    rewrite filter_cons_False by congruence.
    rewrite (cons_middle i earlier), app_assoc. apply IH.
    intros j [Hj | ->%list_elem_of_singleton]%elem_of_app; [apply Hlt in Hj |]; lia.
  - rewrite bool_decide_eq_false_2.
    + rewrite filter_cons_True by assumption. f_equal. apply IH.
      intros j Hj. apply Hlt in Hj. lia.
    + intros [Hj | Hj]%elem_of_app; [apply Hlt in Hj | apply collectCompleted_ge in Hj]; lia.
Qed.

Lemma collectCompleted_length (rows : Board) (i : nat) :
  length (collectCompleted rows i) = length (filter (fun row => rowIsFull row = true) rows).
Proof.
  revert i. induction rows as [| row rest IH]; intros i; simpl; [reflexivity |].
  destruct (rowIsFull row) eqn:Hfull.
  - rewrite filter_cons_True by assumption. simpl. f_equal. apply IH.
  - rewrite filter_cons_False by congruence. apply IH.
Qed.

Lemma full_plus_rest (rows : Board) :
  (length (filter (fun row => rowIsFull row = true) rows) +
   length (filter (fun row => rowIsFull row = false) rows) = length rows)%nat.
Proof.
  induction rows as [| row rest IH]; simpl; [reflexivity |].
  destruct (rowIsFull row) eqn:Hfull.
  - rewrite filter_cons_True, filter_cons_False by congruence. simpl. lia.
  - rewrite filter_cons_False, filter_cons_True by congruence. simpl. lia.
Qed.

(** Whatever the state in which it fires, the callback leaves the
    board it builds from the captured board as the board of the state:
    its later updates do not touch the board. *)
Lemma clearCallback_board (s : State) (task : ClearTask) :
  board (foldl applyState s (clearCallback task)) =
  unshiftEmptyRows (filterRows (boardToCheck task) (completedRowIndices task) 0).
Proof. unfold clearCallback. simpl. destruct (_ >? _); reflexivity. Qed.

(** A callback scheduled by [checkCompletedRows] for a board of 20 rows
    installs one empty row per full row of that board, followed by its
    rows that are not full, in their order. *)
Lemma scheduled_clear_board (s s' : State) (b : Board) (task : ClearTask) :
  length b = 20%nat ->
  In (setTimeout task) (checkCompletedRows s b) ->
  let n := length (filter (fun row => rowIsFull row = true) b) in
  board (foldl applyState s' (clearCallback task)) =
    replicate n emptyRow ++ filter (fun row => rowIsFull row = false) b /\
  completedRowIndices task = collectCompleted b 0 /\
  (0 < n)%nat.
Proof.
  intros Hlen Hin n. unfold checkCompletedRows in Hin.
  destruct (0 <? length (collectCompleted b 0))%nat eqn:Hany; [| destruct Hin].
  destruct Hin as [Hin | [Hin | []]]; [discriminate |]. injection Hin as <-.
  pose proof (full_plus_rest b) as Hsum. fold n in Hsum.
  pose proof (collectCompleted_length b 0) as Hcount. fold n in Hcount.
  apply Nat.ltb_lt in Hany.
  split; [| split; [reflexivity | lia]].
  rewrite clearCallback_board. cbn [boardToCheck completedRowIndices].
  assert (filterRows b (collectCompleted b 0) 0 =
          filter (fun row => rowIsFull row = false) b) as ->
    by (apply (filterRows_collect b 0 []); intros j Hj; inversion Hj).
  unfold unshiftEmptyRows, BOARD_HEIGHT. f_equal. f_equal. lia.
Qed.

(** ** Locking a piece *)

Section Painting.
(** The value written into the board. *)
Variable ink : value.

Lemma paints_nothing (P : nat -> nat -> Prop) (b : Board) :
  wellFormed b ->
  (forall cy cx, (cy < 20)%nat -> (cx < 10)%nat -> ~ P cy cx) ->
  paints ink P b b.
Proof.
  intros Hwf Hnone. split; [exact Hwf |]. split.
  - intros cy cx Hcy Hcx HP. exfalso. exact (Hnone cy cx Hcy Hcx HP).
  - intros cy cx. left. reflexivity.
Qed.

Lemma paints_compose (P Q R : nat -> nat -> Prop) (b b1 b2 : Board) :
  paints ink P b b1 -> paints ink Q b1 b2 ->
  (forall cy cx, P cy cx \/ Q cy cx -> R cy cx) ->
  (forall cy cx, (cy < 20)%nat -> (cx < 10)%nat -> R cy cx -> P cy cx \/ Q cy cx) ->
  paints ink R b b2.
Proof.
  intros (_ & HPa & HPb) (Hwf & HQa & HQb) Hin Hout. split; [exact Hwf |]. split.
  - intros cy cx Hcy Hcx HR.
    destruct (Hout cy cx Hcy Hcx HR) as [HP | HQ].
    + destruct (HQb cy cx) as [Heq | [Hink _]]; [| exact Hink].
      rewrite Heq. apply HPa; assumption.
    + apply HQa; assumption.
  - intros cy cx. destruct (HQb cy cx) as [Heq | [Hink HQ]].
    + destruct (HPb cy cx) as [Heq' | [Hink HP]].
      * left. congruence.
      * right. split; [congruence | apply Hin; left; exact HP].
    + right. split; [exact Hink | apply Hin; right; exact HQ].
Qed.

Lemma writeCell_paints (b : Board) (cy0 cx0 : nat) :
  wellFormed b -> (cy0 < 20)%nat -> (cx0 < 10)%nat ->
  exists b', writeCell b cy0 cx0 ink = Some b' /\
    paints ink (fun cy cx => cy = cy0 /\ cx = cx0) b b'.
Proof.
  intros [Hlen Hrows] Hcy Hcx. unfold writeCell, BOARD_HEIGHT, BOARD_WIDTH in *.
  destruct (lookup_lt_is_Some_2 b cy0) as [row Hrow]; [lia |].
  assert (length row = 10%nat) as Hw.
  { rewrite Forall_forall in Hrows. apply Hrows, list_elem_of_lookup. eauto. }
  rewrite Hrow. eexists. split; [reflexivity |].
  unfold assign. rewrite decide_True by lia.
  assert (cellAt (<[cy0 := <[cx0 := ink]> row]> b) cy0 cx0 = Some ink) as Hhere.
  { unfold cellAt. rewrite list_lookup_insert_eq by lia.
    apply list_lookup_insert_eq. lia. }
  split; [| split].
  - split; [rewrite length_insert; exact Hlen |].
    apply Forall_insert; [exact Hrows | rewrite length_insert; exact Hw].
  - intros cy cx _ _ [-> ->]. exact Hhere.
  - intros cy cx. destruct (decide (cy = cy0)) as [-> | Hne].
    + destruct (decide (cx = cx0)) as [-> | Hne'].
      * right. auto.
      * left. unfold cellAt. rewrite list_lookup_insert_eq, Hrow by lia.
        apply list_lookup_insert_ne. congruence.
    + left. unfold cellAt. rewrite list_lookup_insert_ne by congruence. reflexivity.
Qed.
End Painting.

Section Placement.
Variable p : Piece.t.

Local Abbreviation ink := (Str (color (Piece.tetromino p))).

Lemma hitsCols_cons (v : value) (rest : list value) (y x0 cy cx : nat) :
  hitsCols p (v :: rest) y x0 cy cx <->
  (v <> Num 0 /\ Z.of_nat cx = Z.of_nat x0 + Piece.x p /\
   Z.of_nat cy = Z.of_nat y + Piece.y p) \/
  hitsCols p rest y (S x0) cy cx.
Proof.
  unfold hitsCols. split.
  - intros ([| c] & w & Hc & Hw & Hx & Hy); simpl in Hc.
    + injection Hc as <-. left. rewrite Nat.add_0_r in Hx. auto.
    + right. exists c, w. repeat split; try assumption. lia.
  - intros [(Hv & Hx & Hy) | (c & w & Hc & Hw & Hx & Hy)].
    + exists 0%nat, v. rewrite Nat.add_0_r. auto.
    + exists (S c), w. repeat split; try assumption. lia.
Qed.

Lemma hitsRows_cons (cells : list value) (rest : Shape) (y0 cy cx : nat) :
  hitsRows p (cells :: rest) y0 cy cx <->
  hitsCols p cells y0 0 cy cx \/ hitsRows p rest (S y0) cy cx.
Proof.
  unfold hitsRows, hitsCols, shapeCell. split.
  - intros ([| r] & c & (cs & v & Hr & Hc & Hv) & Hx & Hy); simpl in Hr.
    + injection Hr as <-. left. exists c, v. rewrite Nat.add_0_r in Hy. auto.
    + right. exists r, c. split; [eauto |]. split; [assumption | lia].
  - intros [(c & v & Hc & Hv & Hx & Hy) | (r & c & (cs & v & Hr & Hc & Hv) & Hx & Hy)].
    + exists 0%nat, c. rewrite Nat.add_0_r. split; [exists cells, v; auto | auto].
    + exists (S r), c. split; [exists cs, v; auto |]. split; [assumption | lia].
Qed.

Lemma placeCols_paints (cells : list value) (y x0 : nat) (b : Board) :
  wellFormed b ->
  exists b', placeCols b p y cells x0 = Some b' /\
    paints ink (hitsCols p cells y x0) b b'.
Proof.
  revert x0 b. induction cells as [| v rest IH]; intros x0 b Hwf; simpl.
  - exists b. split; [reflexivity |]. apply paints_nothing; [exact Hwf |].
    intros cy cx _ _ (c & w & Hc & _). discriminate.
  - destruct (nonzero v) eqn:Hv.
    + unfold BOARD_HEIGHT, BOARD_WIDTH.
      destruct (Z.geb_spec (Z.of_nat y + Piece.y p) 0);
        destruct (Z.ltb_spec (Z.of_nat y + Piece.y p) 20);
        destruct (Z.geb_spec (Z.of_nat x0 + Piece.x p) 0);
        destruct (Z.ltb_spec (Z.of_nat x0 + Piece.x p) 10); simpl.
      1: {
        destruct (writeCell_paints ink b (Z.to_nat (Z.of_nat y + Piece.y p))
                    (Z.to_nat (Z.of_nat x0 + Piece.x p)) Hwf) as (b1 & Hb1 & Hp1);
          [lia | lia |].
        rewrite Hb1.
        destruct (IH (S x0) b1 (proj1 Hp1)) as (b' & Hb' & Hp').
        exists b'. split; [exact Hb' |].
        eapply paints_compose; [exact Hp1 | exact Hp' | |].
        - intros cy cx HPQ. apply hitsCols_cons.
          destruct HPQ as [[-> ->] | HQ]; [left | right; exact HQ].
          apply nonzero_true in Hv. repeat split; [exact Hv | lia | lia].
        - intros cy cx _ _ [(_ & Hx & Hy) | HQ]%hitsCols_cons;
            [left; lia | right; exact HQ].
      }
      all: destruct (IH (S x0) b Hwf) as (b' & Hb' & Hp');
        exists b'; (split; [exact Hb' |]);
        eapply paints_compose;
          [apply (paints_nothing ink (fun _ _ => False) b Hwf); tauto | exact Hp' | |];
        [ intros cy cx [[] | HQ]; apply hitsCols_cons; right; exact HQ
        | intros cy cx Hcy Hcx [(_ & Hx & Hy) | HQ]%hitsCols_cons;
            [exfalso; lia | right; exact HQ] ].
    + destruct (IH (S x0) b Hwf) as (b' & Hb' & Hp').
      exists b'. split; [exact Hb' |].
      eapply paints_compose;
        [apply (paints_nothing ink (fun _ _ => False) b Hwf); tauto | exact Hp' | |].
      * intros cy cx [[] | HQ]. apply hitsCols_cons. right. exact HQ.
      * intros cy cx _ _ [(Hnz & _) | HQ]%hitsCols_cons; [| right; exact HQ].
        apply nonzero_true in Hnz. congruence.
Qed.

Lemma placeRows_paints (rows : Shape) (y0 : nat) (b : Board) :
  wellFormed b ->
  exists b', placeRows b p rows y0 = Some b' /\
    paints ink (hitsRows p rows y0) b b'.
Proof.
  revert y0 b. induction rows as [| cells rest IH]; intros y0 b Hwf; simpl.
  - exists b. split; [reflexivity |]. apply paints_nothing; [exact Hwf |].
    intros cy cx _ _ (r & c & (cs & v & Hr & _) & _). discriminate.
  - destruct (placeCols_paints cells y0 0 b Hwf) as (b1 & Hb1 & Hp1). rewrite Hb1.
    destruct (IH (S y0) b1 (proj1 Hp1)) as (b' & Hb' & Hp').
    exists b'. split; [exact Hb' |].
    eapply paints_compose; [exact Hp1 | exact Hp' | |].
    + intros cy cx HPQ. apply hitsRows_cons. exact HPQ.
    + intros cy cx _ _ HR. apply hitsRows_cons. exact HR.
Qed.

Lemma hitsRows_covers (cy cx : nat) :
  hitsRows p (shape (Piece.tetromino p)) 0 cy cx <-> covers p cy cx.
Proof. unfold hitsRows, covers. reflexivity. Qed.
End Placement.

Lemma placePiece_board (s : State) (p : Piece.t) (randKey : Key.t) (newBoard : Board) :
  currentPiece s = Some p ->
  placeRows (board s) p (shape (Piece.tetromino p)) 0 = Some newBoard ->
  (exists rest, placePiece s randKey = Returns (setBoard newBoard :: rest)) /\
  board (stateAfter s (placePiece s randKey)) = newBoard.
Proof.
  intros Hp Hplace. unfold placePiece, stateAfter. rewrite Hp, Hplace.
  unfold checkCompletedRows.
  destruct (0 <? length (collectCompleted newBoard 0))%nat;
    destruct randKey; unfold spawnNewPiece; simpl;
    match goal with
    | |- context [checkCollision ?b ?x ?y ?sh] => destruct (checkCollision b x y sh)
    end; simpl; split; eauto.
Qed.

(** Where the piece does not collide, the board cells under its nonzero
    entries are 0. *)
Lemma covered_cell_free (b : Board) (p : Piece.t) (cy cx : nat) :
  wellFormed b ->
  checkCollision b (Piece.x p) (Piece.y p) (shape (Piece.tetromino p)) = false ->
  covers p cy cx -> (cy < 20)%nat -> (cx < 10)%nat ->
  cellAt b cy cx = Some (Num 0).
Proof.
  intros [Hlen Hrows] Hfree (r & c & Hcell & Hx & Hy) Hcy Hcx.
  assert (collidesAt b (Piece.x p + Z.of_nat c) (Piece.y p + Z.of_nat r) = false) as Hno.
  { apply Bool.not_true_iff_false. intros Hhit.
    apply Bool.not_true_iff_false in Hfree. apply Hfree.
    apply checkCollision_true. exists r, c. auto. }
  unfold collidesAt, BOARD_WIDTH, BOARD_HEIGHT in *.
  replace (Piece.x p + Z.of_nat c) with (Z.of_nat cx) in Hno by lia.
  replace (Piece.y p + Z.of_nat r) with (Z.of_nat cy) in Hno by lia.
  rewrite !Nat2Z.id in Hno.
  destruct (Z.ltb_spec (Z.of_nat cx) 0); [lia |].
  destruct (Z.geb_spec (Z.of_nat cx) 10); [lia |].
  destruct (Z.geb_spec (Z.of_nat cy) 20); [lia |].
  destruct (Z.geb_spec (Z.of_nat cy) 0); [| lia]. simpl in Hno.
  destruct (lookup_lt_is_Some_2 b cy) as [row Hrow]; [lia |].
  assert (length row = 10%nat) as Hw.
  { rewrite Forall_forall in Hrows. apply Hrows, list_elem_of_lookup. eauto. }
  destruct (lookup_lt_is_Some_2 row cx) as [v Hv]; [lia |].
  unfold cellAt. rewrite Hrow in *. unfold elemAt in Hno. rewrite Hv in *. simpl in Hno.
  apply nonzero_false in Hno. congruence.
Qed.

(** C10.  On a 20 x 10 board, [placePiece] installs a board that is
    again 20 x 10, holds the piece's colour in every board cell under a
    nonzero entry of its shape, and agrees with the old board in every
    other cell; when the piece does not collide, the cells it colours
    were empty before. *)
Theorem placePiece_frame (s : State) (p : Piece.t) (randKey : Key.t) :
  currentPiece s = Some p ->
  wellFormed (board s) ->
  let newBoard := board (stateAfter s (placePiece s randKey)) in
  (exists rest, placePiece s randKey = Returns (setBoard newBoard :: rest)) /\
  wellFormed newBoard /\
  (forall cy cx, (cy < 20)%nat -> (cx < 10)%nat -> covers p cy cx ->
     cellAt newBoard cy cx = Some (Str (color (Piece.tetromino p)))) /\
  (forall cy cx, ~ covers p cy cx ->
     cellAt newBoard cy cx = cellAt (board s) cy cx) /\
  (checkCollision (board s) (Piece.x p) (Piece.y p) (shape (Piece.tetromino p)) = false ->
   forall cy cx, (cy < 20)%nat -> (cx < 10)%nat -> covers p cy cx ->
     cellAt (board s) cy cx = Some (Num 0)).
Proof.
  intros Hp Hwf newBoard.
  destruct (placeRows_paints p (shape (Piece.tetromino p)) 0 (board s) Hwf)
    as (b' & Hb' & Hwf' & Hink & Hframe).
  destruct (placePiece_board s p randKey b' Hp Hb') as [Hret Hboard].
  fold newBoard in Hboard. subst b'.
  split; [exact Hret |]. split; [exact Hwf' |]. split; [| split].
  - intros cy cx Hcy Hcx Hcov.
    apply Hink; [exact Hcy | exact Hcx | apply hitsRows_covers; exact Hcov].
  - intros cy cx Hnot. destruct (Hframe cy cx) as [Heq | [_ Hhit]]; [exact Heq |].
    exfalso. apply Hnot, hitsRows_covers. exact Hhit.
  - intros Hfree cy cx Hcy Hcx Hcov.
    apply (covered_cell_free (board s) p cy cx Hwf Hfree Hcov Hcy Hcx).
Qed.

Lemma placePiece_frame_witness :
  let p := {| Piece.x := 4; Piece.y := 18; Piece.tetromino := randomTetromino Key.O |} in
  let s := applyState initialState (setCurrentPiece (Some p)) in
  let newBoard := board (stateAfter s (placePiece s Key.I)) in
  cellAt newBoard 19 5 = Some (Str "bg-yellow-500") /\
  cellAt (board s) 19 5 = Some (Num 0).
Proof.
  intros p s newBoard.
  destruct (placePiece_frame s p Key.I eq_refl wellFormed_createEmptyBoard)
    as (_ & _ & Hink & _ & Hfree).
  assert (covers p 19 5) as Hcov.
  { exists 1%nat, 1%nat. split; [| split; reflexivity].
    exists [Num 1; Num 1], (Num 1). repeat split; discriminate. }
  split.
  - apply (Hink 19%nat 5%nat); [lia | lia | exact Hcov].
  - apply (Hfree eq_refl 19%nat 5%nat); [lia | lia | exact Hcov].
Defined.

(** ** Hard drop *)

Lemma board_foldl_applyState (s s' : State) (us : list Update) :
  board s = board s' -> board (foldl applyState s us) = board (foldl applyState s' us).
Proof.
  revert s s'. induction us as [| u us IH]; intros s s' Hb; simpl; [exact Hb |].
  apply IH. destruct u; simpl; congruence.
Qed.

(** Below the floor every piece with a nonzero entry collides. *)
Lemma collides_below_floor (b : Board) (x y : Z) (sh : Shape) (r c : nat) :
  shapeCell sh r c -> y + Z.of_nat r >= BOARD_HEIGHT -> checkCollision b x y sh = true.
Proof.
  intros Hcell Hlow. apply checkCollision_true. exists r, c. split; [exact Hcell |].
  unfold collidesAt. destruct (Z.geb_spec (y + Z.of_nat r) BOARD_HEIGHT); [| lia].
  rewrite orb_true_r. reflexivity.
Qed.

(** The loop of [dropToBottom] ends for a shape with a nonzero entry,
    within the iterations [step] allows, at the lowest row the piece
    reaches by valid one-row steps. *)
Lemma dropLoop_terminates (b : Board) (x : Z) (sh : Shape) (r c : nat) (fuel : nat) (y : Z) :
  shapeCell sh r c ->
  (Z.to_nat (BOARD_HEIGHT - y) < fuel)%nat ->
  exists newY, dropLoop fuel b x y sh = Some newY /\ y <= newY /\
    isValidMove b x (newY + 1) sh = false /\
    forall y', y < y' <= newY -> isValidMove b x y' sh = true.
Proof.
  intros Hcell. revert y. induction fuel as [| fuel IH]; intros y Hfuel; [lia |].
  simpl. destruct (isValidMove b x (y + 1) sh) eqn:Hvalid.
  - assert (y + 1 + Z.of_nat r < BOARD_HEIGHT) as Hroom.
    { destruct (Z.lt_ge_cases (y + 1 + Z.of_nat r) BOARD_HEIGHT) as [H | H]; [exact H |].
      unfold isValidMove in Hvalid.
      rewrite (collides_below_floor b x (y + 1) sh r c Hcell) in Hvalid by lia.
      discriminate. }
    destruct (IH (y + 1)) as (newY & Hloop & Hle & Hstop & Hpath);
      [unfold BOARD_HEIGHT in *; lia |].
    exists newY. split; [exact Hloop |]. split; [lia |]. split; [exact Hstop |].
    intros y' Hy'. destruct (Z.eq_dec y' (y + 1)) as [-> | Hne]; [exact Hvalid |].
    apply Hpath. lia.
  - exists y. split; [reflexivity |]. split; [lia |]. split; [exact Hvalid |].
    intros y' Hy'. lia.
Qed.

(** A piece that cannot move down one row: the hard drop queues
    nothing. *)
Lemma dropToBottom_blocked (s : State) (p : Piece.t) (randKey : Key.t) :
  currentPiece s = Some p ->
  isValidMove (board s) (Piece.x p) (Piece.y p + 1) (shape (Piece.tetromino p)) = false ->
  dropToBottom (dropFuel p) s randKey = Some (Returns []).
Proof.
  intros Hp Hblocked. unfold dropToBottom, dropFuel. rewrite Hp. simpl.
  rewrite Hblocked, Z.eqb_refl. reflexivity.
Qed.

(** A piece that can move down: the hard drop installs the board that
    [placePiece] builds in the same snapshot, that is, with the piece at
    the row it had before the drop. *)
Lemma dropToBottom_board (s : State) (p : Piece.t) (randKey : Key.t) (fuel : nat) (o : Outcome) :
  currentPiece s = Some p ->
  isValidMove (board s) (Piece.x p) (Piece.y p + 1) (shape (Piece.tetromino p)) = true ->
  dropToBottom fuel s randKey = Some o ->
  board (stateAfter s o) = board (stateAfter s (placePiece s randKey)).
Proof.
  intros Hp Hvalid Hdrop. unfold dropToBottom in Hdrop. rewrite Hp in Hdrop.
  destruct (dropLoop fuel (board s) (Piece.x p) (Piece.y p) (shape (Piece.tetromino p)))
    as [newY |] eqn:Hloop; [| discriminate].
  destruct (negb (newY =? Piece.y p)) eqn:Hmoved.
  - injection Hdrop as <-. unfold stateAfter.
    destruct (placePiece s randKey) as [us | us]; simpl;
      apply board_foldl_applyState; reflexivity.
  - exfalso. apply negb_false_iff, Z.eqb_eq in Hmoved. subst newY.
    destruct fuel as [| fuel]; [discriminate |]. simpl in Hloop. rewrite Hvalid in Hloop.
    clear Hdrop Hp.
    assert (forall n y, dropLoop n (board s) (Piece.x p) y (shape (Piece.tetromino p)) = Some (Piece.y p) ->
              y <= Piece.y p) as Hmono.
    { induction n as [| n IHn]; intros y Hy; [discriminate |]. simpl in Hy.
      destruct (isValidMove (board s) (Piece.x p) (y + 1) (shape (Piece.tetromino p))).
      - apply IHn in Hy. lia.
      - injection Hy as ->. lia. }
    apply Hmono in Hloop. lia.
Qed.

(** Closed statements about concrete runs are settled by evaluation,
    one conjunct after the other. *)
Ltac evaluate :=
  repeat match goal with
         | |- _ /\ _ => split
         end;
  (vm_compute; first [reflexivity | discriminate]).

(** C3 (the code departs from the claim).  A fresh game, an O piece
    spawned at column 4, row 0, then the space bar: the loop finds the
    resting row 18, but the board that is installed has the piece in
    rows 0 and 1 and nothing below.  Nineteen steps of the fall timer
    from the same state lock it in rows 18 and 19. *)
Theorem hard_drop_locks_in_place :
  let yellowRow :=
    <[4%nat := Str "bg-yellow-500"]> (<[5%nat := Str "bg-yellow-500"]> emptyRow) in
  let p := {| Piece.x := 4; Piece.y := 0; Piece.tetromino := randomTetromino Key.O |} in
  observe currentPiece [SpawnEffect Key.O] = Some (Some p) /\
  observe board [SpawnEffect Key.O] = Some createEmptyBoard /\
  dropLoop (dropFuel p) createEmptyBoard (Piece.x p) (Piece.y p)
    (shape (Piece.tetromino p)) = Some 18 /\
  observe board [SpawnEffect Key.O; KeyPress Space Key.I] =
    Some (<[0%nat := yellowRow]> (<[1%nat := yellowRow]> createEmptyBoard)) /\
  observe board ([SpawnEffect Key.O] ++ replicate 19 (Interval Key.I)) =
    Some (<[18%nat := yellowRow]> (<[19%nat := yellowRow]> createEmptyBoard)).
Proof. intros yellowRow p. evaluate. Qed.

(** ** Deferred row removal *)

Lemma applyUpdates_st (w : World) (us : list Update) :
  st (applyUpdates w us) = foldl applyState (st w) us.
Proof.
  unfold applyUpdates. revert w. induction us as [| u us IH]; intros w; simpl;
    [reflexivity |]. rewrite IH. reflexivity.
Qed.

(** What the callback does to score, level and drop interval, in terms
    of the values it captured. *)
Lemma clearCallback_scoring (s : State) (task : ClearTask) :
  let s' := foldl applyState s (clearCallback task) in
  let newScore :=
    cl_score task + Z.of_nat (length (completedRowIndices task)) * 100 * cl_level task in
  score s' = newScore /\
  (1 + newScore / 500 > cl_level task ->
   level s' = level s + 1 /\ dropTime s' = Qmult (dropTime s) (95 # 100)) /\
  (~ 1 + newScore / 500 > cl_level task ->
   level s' = level s /\ dropTime s' = dropTime s).
Proof.
  intros s' newScore. unfold s', clearCallback. fold newScore.
  destruct (Z.gtb_spec (newScore / 500) (cl_level task - 1)); simpl;
    (split; [reflexivity |]); split; intros H'; try lia; split; reflexivity.
Qed.

(** When the captured score and level are those of the state in which
    the callback fires, the score grows by n * 100 * level and the level
    by at most one. *)
Lemma clear_fresh (w w' : World) (task : ClearTask) (rest : list ClearTask) :
  timeouts w = task :: rest ->
  cl_score task = score (st w) -> cl_level task = level (st w) ->
  step w TimeoutFires = Some w' ->
  let n := Z.of_nat (length (completedRowIndices task)) in
  score (st w') = score (st w) + n * 100 * level (st w) /\
  (1 + score (st w') / 500 > level (st w) ->
   level (st w') = level (st w) + 1 /\
   dropTime (st w') = Qmult (dropTime (st w)) (95 # 100)) /\
  (~ 1 + score (st w') / 500 > level (st w) ->
   level (st w') = level (st w) /\ dropTime (st w') = dropTime (st w)).
Proof.
  intros Hq Hs Hl Hstep n.
  assert (w' = applyUpdates {| st := st w; timeouts := rest |} (clearCallback task)) as ->.
  { unfold step in Hstep. rewrite Hq in Hstep. congruence. }
  rewrite applyUpdates_st.
  change (st {| st := st w; timeouts := rest |}) with (st w).
  destruct (clearCallback_scoring (st w) task) as (Hscore & Hup & Hsame).
  cbv zeta in Hscore, Hup, Hsame. rewrite Hs, Hl in Hscore, Hup, Hsame.
  fold n in Hscore, Hup, Hsame. rewrite Hscore. auto.
Qed.

(** C4 (the code departs from the claim).  The bottom row is completed
    and, before its removal fires, the next piece (a flat I) is locked
    by the space bar in row 0: a second removal is scheduled for the
    board with that row.  The first callback then installs the board it
    captured without its full row: the I locked in between is gone,
    where removing the full row of the board as it stood would have
    kept it, one row lower.  A T is locked next, in rows 0 and 1; the
    board has no full row, so clearing it would leave it as it is.  The
    second callback fires all the same: it removes the T and puts the I
    back, and nothing is pending afterwards. *)
Theorem stale_clear_rewrites_board :
  let cleared (b : Board) :=
    replicate (length (filter (fun row => rowIsFull row = true) b)) emptyRow ++
    filter (fun row => rowIsFull row = false) b in
  let yellowRow :=
    <[8%nat := Str "bg-yellow-500"]> (<[9%nat := Str "bg-yellow-500"]> emptyRow) in
  let cyanRow := replicate 3 (Num 0) ++ replicate 4 (Str "bg-cyan-500") ++ replicate 3 (Num 0) in
  let purpleTop := <[5%nat := Str "bg-purple-500"]> emptyRow in
  let purpleRow := replicate 4 (Num 0) ++ replicate 3 (Str "bg-purple-500") ++ replicate 3 (Num 0) in
  let fullRow := replicate 8 (Str "bg-cyan-500") ++ replicate 2 (Str "bg-yellow-500") in
  let secondLock := completeBottomRow ++ [KeyPress Space Key.T] in
  let thirdLock := secondLock ++ [TimeoutFires; KeyPress Space Key.T] in
  let b1 := <[0%nat := cyanRow]> (<[18%nat := yellowRow]> (<[19%nat := fullRow]> createEmptyBoard)) in
  let b2 := <[0%nat := purpleTop]> (<[1%nat := purpleRow]> (<[19%nat := yellowRow]> createEmptyBoard)) in
  observe board secondLock = Some b1 /\
  pendingSummary secondLock = Some [(1%nat, 0, 1); (1%nat, 0, 1)] /\
  cleared b1 = <[1%nat := cyanRow]> (<[19%nat := yellowRow]> createEmptyBoard) /\
  observe board (secondLock ++ [TimeoutFires]) = Some (<[19%nat := yellowRow]> createEmptyBoard) /\
  observe board thirdLock = Some b2 /\
  observe (fun s => collectCompleted (board s) 0) thirdLock = Some [] /\
  pendingSummary thirdLock = Some [(1%nat, 0, 1)] /\
  cleared b2 = b2 /\
  observe board (thirdLock ++ [TimeoutFires]) =
    Some (<[1%nat := cyanRow]> (<[19%nat := yellowRow]> createEmptyBoard)) /\
  pendingSummary (thirdLock ++ [TimeoutFires]) = Some [].
Proof.
  intros cleared yellowRow cyanRow purpleTop purpleRow fullRow secondLock thirdLock b1 b2.
  evaluate.
Qed.

(** C5 (the code departs from the claim).  A row is completed, and a
    second piece is locked before the removal fires: two removals of
    one row each are pending, both created at score 0.  When the second
    one completes, at level 1, the score is 100 before and 100 after;
    the claim asks for an increase of 1 * 100 * 1.  The same happens
    when the second lock is a hard drop.  With the score at 400 the two
    removals, both created at level 1, each raise the level: the second
    one leaves the score at 500 and moves the level from 2 to 3 and the
    drop interval from 760 to 722, although 1 + floor(500 / 500) does
    not exceed the level 2 it found. *)
Theorem stale_clear_adds_nothing :
  pendingSummary lockWhilePending = Some [(1%nat, 0, 1); (1%nat, 0, 1)] /\
  pendingSummary (lockWhilePending ++ [TimeoutFires]) = Some [(1%nat, 0, 1)] /\
  observe score (lockWhilePending ++ [TimeoutFires]) = Some 100 /\
  observe level (lockWhilePending ++ [TimeoutFires]) = Some 1 /\
  observe score (lockWhilePending ++ [TimeoutFires; TimeoutFires]) = Some 100 /\
  pendingSummary (completeBottomRow ++ [KeyPress Space Key.T]) =
    Some [(1%nat, 0, 1); (1%nat, 0, 1)] /\
  observe score (completeBottomRow ++ [KeyPress Space Key.T; TimeoutFires]) = Some 100 /\
  observe score (completeBottomRow ++ [KeyPress Space Key.T; TimeoutFires; TimeoutFires]) =
    Some 100 /\
  observe score fourClears = Some 400 /\
  observe level fourClears = Some 1 /\
  pendingSummary fifthClearAndDrop = Some [(1%nat, 400, 1); (1%nat, 400, 1)] /\
  observe score (fifthClearAndDrop ++ [TimeoutFires]) = Some 500 /\
  observe level (fifthClearAndDrop ++ [TimeoutFires]) = Some 2 /\
  observe score (fifthClearAndDrop ++ [TimeoutFires; TimeoutFires]) = Some 500 /\
  observe level (fifthClearAndDrop ++ [TimeoutFires; TimeoutFires]) = Some 3 /\
  observe dropTime (fifthClearAndDrop ++ [TimeoutFires; TimeoutFires]) =
    Some (Qmult (Qmult INITIAL_DROP_TIME SPEED_INCREASE_FACTOR) SPEED_INCREASE_FACTOR).
Proof. evaluate. Qed.

(** [resetGame] installs the initial values and leaves the queue of
    pending callbacks as it is. *)
Lemma reset_keeps_timeouts (w w' : World) :
  step w ResetButton = Some w' ->
  st w' = initialState /\ timeouts w' = timeouts w.
Proof. intros H. injection H as <-. split; reflexivity. Qed.

(** Whatever the session, a callback that is pending when the reset
    button is pressed still fires afterwards, and installs the board and
    the score computed from what it captured. *)
Lemma reset_then_stale_clear (w : World) (task : ClearTask) (rest : list ClearTask) :
  timeouts w = task :: rest ->
  exists w1 w2,
    step w ResetButton = Some w1 /\ st w1 = initialState /\
    step w1 TimeoutFires = Some w2 /\
    board (st w2) =
      unshiftEmptyRows (filterRows (boardToCheck task) (completedRowIndices task) 0) /\
    score (st w2) =
      cl_score task + Z.of_nat (length (completedRowIndices task)) * 100 * cl_level task.
Proof.
  intros Hq. eexists. eexists. split; [reflexivity |]. split; [reflexivity |].
  unfold step. cbn [timeouts applyUpdates applyUpdate foldl queued resetGame].
  rewrite Hq. split; [reflexivity |]. rewrite applyUpdates_st. unfold clearCallback.
  destruct (_ >? _); split; reflexivity.
Qed.

(** C7 (the code departs from the claim).  A row is completed, the
    reset button is pressed while its removal is pending, the next piece
    spawns.  The state is then the fresh one, with the removal still
    queued; when it fires, the board is the old stack without its full
    row and the score is 100. *)
Theorem stale_clear_after_reset :
  let afterReset := completeBottomRow ++ [ResetButton; SpawnEffect Key.T] in
  let oldStack :=
    <[19%nat := <[8%nat := Str "bg-yellow-500"]>
                  (<[9%nat := Str "bg-yellow-500"]> emptyRow)]> createEmptyBoard in
  pendingSummary completeBottomRow = Some [(1%nat, 0, 1)] /\
  observe board afterReset = Some createEmptyBoard /\
  observe score afterReset = Some 0 /\
  observe level afterReset = Some 1 /\
  observe dropTime afterReset = Some INITIAL_DROP_TIME /\
  pendingSummary afterReset = Some [(1%nat, 0, 1)] /\
  observe board (afterReset ++ [TimeoutFires]) = Some oldStack /\
  oldStack <> createEmptyBoard /\
  observe score (afterReset ++ [TimeoutFires]) = Some 100.
Proof. intros afterReset oldStack. evaluate. Qed.

(** ** Monotone quantities *)

Lemma queued_andThen (us : list Update) (k : Outcome) :
  queued (andThen (Returns us) k) = us ++ queued k.
Proof. destruct k; reflexivity. Qed.

Ltac quiet_list :=
  repeat first
    [ apply Forall_nil_2
    | apply Forall_cons_2; [split; first [exact Logic.I | reflexivity] |] ].

Lemma spawnNewPiece_quiet (s : State) (randKey : Key.t) :
  Forall quiet (queued (spawnNewPiece s randKey)).
Proof.
  destruct randKey; unfold spawnNewPiece; simpl;
    match goal with
    | |- context [checkCollision ?b ?x ?y ?sh] => destruct (checkCollision b x y sh)
    end; simpl; quiet_list.
Qed.

Lemma checkCompletedRows_quiet (s : State) (b : Board) :
  Forall quiet (checkCompletedRows s b).
Proof.
  unfold checkCompletedRows.
  destruct (0 <? length (collectCompleted b 0))%nat; quiet_list.
Qed.

Lemma placePiece_quiet (s : State) (randKey : Key.t) :
  Forall quiet (queued (placePiece s randKey)).
Proof.
  unfold placePiece. destruct (currentPiece s) as [p |]; [| quiet_list].
  destruct (placeRows (board s) p (shape (Piece.tetromino p)) 0) as [nb |]; [| quiet_list].
  rewrite queued_andThen. apply Forall_app. split; [| apply spawnNewPiece_quiet].
  apply Forall_cons_2; [split; exact Logic.I | apply checkCompletedRows_quiet].
Qed.

Lemma moveLeft_quiet (s : State) : Forall quiet (queued (moveLeft s)).
Proof.
  unfold moveLeft. destruct (currentPiece s) as [p |]; [| quiet_list].
  destruct (isValidMove _ _ _ _); quiet_list.
Qed.

Lemma moveRight_quiet (s : State) : Forall quiet (queued (moveRight s)).
Proof.
  unfold moveRight. destruct (currentPiece s) as [p |]; [| quiet_list].
  destruct (isValidMove _ _ _ _); quiet_list.
Qed.

Lemma moveDown_quiet (s : State) (randKey : Key.t) :
  Forall quiet (queued (moveDown s randKey)).
Proof.
  unfold moveDown. destruct (currentPiece s) as [p |]; [| quiet_list].
  destruct (isValidMove _ _ _ _); [quiet_list | apply placePiece_quiet].
Qed.

Lemma rotate_quiet (s : State) : Forall quiet (queued (rotate s)).
Proof.
  unfold rotate. destruct (currentPiece s) as [p |]; [| quiet_list].
  destruct (rotateShape (shape (Piece.tetromino p))) as [rotated |]; [| quiet_list].
  simpl. repeat (destruct (isValidMove _ _ _ _); simpl; [quiet_list |]). quiet_list.
Qed.

Lemma dropToBottom_quiet (fuel : nat) (s : State) (randKey : Key.t) (o : Outcome) :
  dropToBottom fuel s randKey = Some o -> Forall quiet (queued o).
Proof.
  unfold dropToBottom. destruct (currentPiece s) as [p |].
  - destruct (dropLoop fuel (board s) (Piece.x p) (Piece.y p) (shape (Piece.tetromino p)))
      as [newY |]; [| discriminate].
    destruct (negb (newY =? Piece.y p)); intros H;
      [| injection H as <-; quiet_list].
    match type of H with
    | Some ?o' = Some _ => replace o with o' by congruence
    end.
    rewrite queued_andThen. apply Forall_app. split; [quiet_list | apply placePiece_quiet].
  - intros H. injection H as <-. quiet_list.
Qed.

Lemma handler_quiet (s : State) (c : Command) (o : Outcome) :
  c <> ResetButton -> handler s c = Some o -> Forall quiet (queued o).
Proof.
  intros Hc Ho. destruct c as [key randKey | | | | randKey | randKey | | randKey |];
    simpl in Ho; try congruence.
  - unfold handleKeyPress in Ho.
    destruct (gameOver s); [injection Ho as <-; quiet_list |].
    destruct key; try (injection Ho as <-).
    + apply moveLeft_quiet.
    + apply moveRight_quiet.
    + apply moveDown_quiet.
    + apply rotate_quiet.
    + destruct (currentPiece s) as [p |]; [| injection Ho as <-; quiet_list].
      apply (dropToBottom_quiet _ _ _ _ Ho).
    + quiet_list.
  - injection Ho as <-. destruct (gameOver s); [quiet_list | apply moveLeft_quiet].
  - injection Ho as <-. destruct (gameOver s); [quiet_list | apply moveRight_quiet].
  - injection Ho as <-. destruct (gameOver s); [quiet_list | apply rotate_quiet].
  - injection Ho as <-. destruct (gameOver s); [quiet_list | apply moveDown_quiet].
  - injection Ho as <-. destruct (gameOver s); [quiet_list | apply moveDown_quiet].
  - injection Ho as <-. quiet_list.
  - injection Ho as <-. destruct (currentPiece s); [quiet_list |].
    destruct (gameOver s); [quiet_list | apply spawnNewPiece_quiet].
Qed.

Lemma speed_factor_shrinks (q : Q) :
  (0 <= q)%Q ->
  (0 <= Qmult q SPEED_INCREASE_FACTOR)%Q /\ (Qmult q SPEED_INCREASE_FACTOR <= q)%Q.
Proof.
  destruct q as [n d]. unfold Qle, Qmult, SPEED_INCREASE_FACTOR. simpl.
  intros Hq. split; nia.
Qed.

Lemma clearCallback_tame (task : ClearTask) : Forall tame (clearCallback task).
Proof.
  unfold clearCallback.
  repeat (apply Forall_cons_2; [exact Logic.I |]). simpl.
  destruct (_ >? _); [| apply Forall_nil_2].
  apply Forall_cons_2; [intros n; lia |].
  apply Forall_cons_2; [exact speed_factor_shrinks | apply Forall_nil_2].
Qed.

Lemma tame_foldl (us : list Update) (s : State) :
  Forall tame us ->
  let s' := foldl applyState s us in
  level s <= level s' /\
  (gameOver s = true -> gameOver s' = true) /\
  ((0 <= dropTime s)%Q -> (0 <= dropTime s')%Q /\ (dropTime s' <= dropTime s)%Q).
Proof.
  revert s. induction us as [| u us IH]; intros s Htame; simpl.
  - split; [lia |]. split; [auto |]. intros H. split; [exact H | apply Qle_refl].
  - apply Forall_cons in Htame as [Hu Hus].
    destruct (IH (applyState s u) Hus) as (Hl & Hg & Hd).
    destruct u; simpl in *; try (split; [exact Hl | split; [exact Hg | exact Hd]]);
      try contradiction.
    + subst g. split; [exact Hl |]. split; [intros _; apply Hg; reflexivity | exact Hd].
    + split; [exact Hl |]. split; [exact Hg |]. intros H0.
      destruct (Hu _ H0) as [Hpos Hle]. destruct (Hd Hpos) as [Hpos' Hle'].
      split; [exact Hpos' | eapply Qle_trans; eassumption].
    + split; [specialize (Hu (level s)); lia |]. split; [exact Hg | exact Hd].
Qed.

Lemma keepsScore_foldl (us : list Update) (s : State) :
  Forall keepsScore us -> score (foldl applyState s us) = score s.
Proof.
  revert s. induction us as [| u us IH]; intros s Hk; simpl; [reflexivity |].
  apply Forall_cons in Hk as [Hu Hus]. rewrite (IH _ Hus).
  destruct u; simpl in *; try reflexivity. contradiction.
Qed.

(** The parts of the invariant that hold: no event other than the reset
    button lowers the level, clears the game-over flag, or raises a drop
    interval that is not negative. *)
Lemma step_monotone (w w' : World) (c : Command) :
  c <> ResetButton -> step w c = Some w' ->
  level (st w) <= level (st w') /\
  (gameOver (st w) = true -> gameOver (st w') = true) /\
  ((0 <= dropTime (st w))%Q ->
   (0 <= dropTime (st w'))%Q /\ (dropTime (st w') <= dropTime (st w))%Q).
Proof.
  intros Hc Hstep.
  assert (exists w0 us, st w0 = st w /\ Forall tame us /\ w' = applyUpdates w0 us)
    as (w0 & us & Hw0 & Htame & ->).
  { assert (c = TimeoutFires \/ c <> TimeoutFires) as [-> | Hne]
      by (destruct c; (left; reflexivity) || (right; discriminate)).
    - simpl in Hstep. destruct (timeouts w) as [| task rest].
      + exists w, []. split; [reflexivity |].
        split; [apply Forall_nil_2 | injection Hstep as <-; reflexivity].
      + exists {| st := st w; timeouts := rest |}, (clearCallback task).
        split; [reflexivity |].
        split; [apply clearCallback_tame | injection Hstep as <-; reflexivity].
    - assert (step w c = match handler (st w) c with
                         | None => None
                         | Some o => Some (applyUpdates w (queued o))
                         end) as Hs by (destruct c; congruence || reflexivity).
      rewrite Hs in Hstep. destruct (handler (st w) c) as [o |] eqn:Ho; [| discriminate].
      exists w, (queued o). split; [reflexivity |]. split; [| congruence].
      eapply Forall_impl; [exact (handler_quiet _ _ _ Hc Ho) |]. intros u [Hu _]. exact Hu. }
  rewrite applyUpdates_st, Hw0. apply tame_foldl. exact Htame.
Qed.

(** Only the deferred callback (and the reset button) changes the
    score. *)
Lemma step_keeps_score (w w' : World) (c : Command) :
  c <> ResetButton -> c <> TimeoutFires -> step w c = Some w' ->
  score (st w') = score (st w).
Proof.
  intros Hc Hc' Hstep.
  assert (step w c = match handler (st w) c with
                     | None => None
                     | Some o => Some (applyUpdates w (queued o))
                     end) as Hs by (destruct c; congruence || reflexivity).
  rewrite Hs in Hstep. destruct (handler (st w) c) as [o |] eqn:Ho; [| discriminate].
  injection Hstep as <-. rewrite applyUpdates_st. apply keepsScore_foldl.
  eapply Forall_impl; [exact (handler_quiet _ _ _ Hc Ho) |]. intros u [_ Hu]. exact Hu.
Qed.

(** The drop interval is never negative in a session that started from
    the initial world, so the last part of [step_monotone] applies to
    every event of such a session. *)
Lemma dropTime_nonneg (cs : list Command) (w w' : World) :
  (0 <= dropTime (st w))%Q -> run w cs = Some w' -> (0 <= dropTime (st w'))%Q.
Proof.
  revert w. induction cs as [| c cs IH]; intros w Hw Hrun; simpl in Hrun.
  - injection Hrun as <-. exact Hw.
  - destruct (step w c) as [w1 |] eqn:Hstep; [| discriminate].
    apply (IH w1); [| exact Hrun].
    assert (c = ResetButton \/ c <> ResetButton) as [-> | Hne]
      by (destruct c; (left; reflexivity) || (right; discriminate)).
    + destruct (reset_keeps_timeouts w w1 Hstep) as [-> _]. simpl. discriminate.
    + destruct (step_monotone w w1 c Hne Hstep) as (_ & _ & Hd). apply Hd. exact Hw.
Qed.

(** C8 (the code departs from the claim).  Three removals overlap: the
    first (1 row) and the second (3 rows) are created at score 0, the
    third (1 row) after the first has fired, at score 100.  They fire in
    that order and set the score to 100, 300 and 200: the last event
    lowers the score by 100. *)
Theorem score_decreases :
  let twoPending := buildStack ++ play 1 6 17 Key.I ++ play 1 5 16 Key.S in
  pendingSummary twoPending = Some [(1%nat, 0, 1); (3%nat, 0, 1)] /\
  observe score twoPending = Some 0 /\
  observe score (twoPending ++ [TimeoutFires]) = Some 100 /\
  pendingSummary threeClears = Some [(1%nat, 100, 1)] /\
  observe score threeClears = Some 300 /\
  observe score (threeClears ++ [TimeoutFires]) = Some 200 /\
  observe level (threeClears ++ [TimeoutFires]) = Some 1 /\
  observe gameOver (threeClears ++ [TimeoutFires]) = Some false.
Proof. intros twoPending. evaluate. Qed.

(** ** Well-formed sessions *)

Lemma catalogue_shapeOk (randKey : Key.t) : shapeOk (shape (randomTetromino randKey)).
Proof.
  destruct randKey; (split; [discriminate |]); (split; [simpl; repeat constructor |]);
    (split; [simpl; lia |]).
  1: exists 0%nat, 0%nat.
  all: try (exists 1%nat, 1%nat).
  all: eexists _, (Num 1); repeat split; discriminate.
Qed.

Lemma rotateShape_rows (sh rotated : Shape) :
  rotateShape sh = Some rotated ->
  length rotated = shapeWidth sh /\
  Forall (fun row => length row = length sh) rotated.
Proof.
  destruct sh as [| row0 rest]; [discriminate |]. intros H. injection H as <-. split.
  - rewrite length_fmap, length_seq. reflexivity.
  - apply Forall_fmap, Forall_forall. intros i _. simpl.
    rewrite length_reverse. simpl. rewrite length_fmap. reflexivity.
Qed.

Lemma rotateShape_shapeOk (sh rotated : Shape) :
  shapeOk sh -> rotateShape sh = Some rotated -> shapeOk rotated.
Proof.
  intros (Hne & Hrect & Hwidth & r & c & cells & v & Hr & Hc & Hv) Hrot.
  destruct (rotateShape_rows sh rotated Hrot) as [Hlen Hrows].
  assert (0 < length sh)%nat as Hheight by (destruct sh; [congruence | simpl; lia]).
  assert (r < length sh)%nat as Hr' by (apply lookup_lt_is_Some; eauto).
  assert (c < shapeWidth sh)%nat as Hc'.
  { destruct sh as [| row0 rest]; [congruence |]. simpl in *.
    rewrite Forall_forall in Hrect.
    rewrite <- (Hrect cells) by (apply list_elem_of_lookup; eauto).
    apply lookup_lt_is_Some. eauto. }
  destruct rotated as [| first others]; [simpl in Hlen; lia |].
  split; [discriminate |]. split; [| split].
  - simpl. apply Forall_cons in Hrows as [Hfirst Hothers].
    apply Forall_cons. split; [reflexivity |].
    eapply Forall_impl; [exact Hothers |]. intros row Hrow. simpl in Hrow. congruence.
  - simpl. apply Forall_cons in Hrows as [Hfirst _]. lia.
  - destruct (rotateShape_entry sh (first :: others) c (length sh - S r) Hrot)
      as (cells' & Hcells' & Hentry); [exact Hc' | lia |].
    exists c, (length sh - S r)%nat, cells', v.
    split; [exact Hcells' |]. split; [| exact Hv].
    rewrite Hentry.
    replace (length sh - S (length sh - S r))%nat with r by lia.
    rewrite Hr. simpl. unfold elemAt. rewrite Hc. reflexivity.
Qed.

Lemma rotateShape_defined (sh : Shape) : shapeOk sh -> is_Some (rotateShape sh).
Proof. intros (Hne & _). destruct sh; [congruence | eexists; reflexivity]. Qed.

Lemma filterRows_sub (P : list value -> Prop) (rows : Board) (indices : list nat) (i : nat) :
  Forall P rows ->
  Forall P (filterRows rows indices i) /\
  (length (filterRows rows indices i) <= length rows)%nat.
Proof.
  revert i. induction rows as [| row rest IH]; intros i Hall; simpl.
  - split; [constructor | lia].
  - apply Forall_cons in Hall as [Hrow Hrest]. destruct (IH (S i) Hrest) as [HP Hlen].
    destruct (bool_decide (i ∈ indices)); simpl; split; try lia; try exact HP.
    apply Forall_cons. split; assumption.
Qed.

Lemma clearCallback_board_wellFormed (task : ClearTask) :
  wellFormed (boardToCheck task) ->
  wellFormed (unshiftEmptyRows (filterRows (boardToCheck task) (completedRowIndices task) 0)).
Proof.
  intros [Hlen Hrows].
  destruct (filterRows_sub _ _ (completedRowIndices task) 0 Hrows) as [Hkept Hle].
  unfold unshiftEmptyRows. split.
  - rewrite length_app, length_replicate. lia.
  - apply Forall_app. split; [| exact Hkept].
    apply Forall_replicate. reflexivity.
Qed.

Section OkUpdates.
Variable s : State.
Hypothesis Hs : stateOk s.

Lemma spawnNewPiece_ok (randKey : Key.t) :
  (exists us, spawnNewPiece s randKey = Returns us) /\
  Forall okUpdate (queued (spawnNewPiece s randKey)).
Proof.
  pose proof (catalogue_shapeOk randKey) as Hshape.
  destruct randKey; unfold spawnNewPiece; simpl;
    match goal with
    | |- context [checkCollision ?b ?x ?y ?sh] => destruct (checkCollision b x y sh)
    end; (split; [eauto |]); simpl;
    (apply Forall_cons_2; [| apply Forall_nil_2]); simpl;
    first [exact Logic.I | intros q [= <-]; exact Hshape].
Qed.

Lemma checkCompletedRows_ok (b : Board) :
  wellFormed b -> Forall okUpdate (checkCompletedRows s b).
Proof.
  intros Hb. unfold checkCompletedRows.
  destruct (0 <? length (collectCompleted b 0))%nat; [| apply Forall_nil_2].
  apply Forall_cons_2; [exact Logic.I |]. apply Forall_cons_2; [exact Hb | apply Forall_nil_2].
Qed.

Lemma placePiece_ok (randKey : Key.t) :
  (exists us, placePiece s randKey = Returns us) /\
  Forall okUpdate (queued (placePiece s randKey)).
Proof.
  unfold placePiece. destruct (currentPiece s) as [p |];
    [| split; [eauto | apply Forall_nil_2]].
  destruct (placeRows_paints p (shape (Piece.tetromino p)) 0 (board s) (proj1 Hs))
    as (nb & Hnb & Hwf & _).
  rewrite Hnb. destruct (spawnNewPiece_ok randKey) as [[us Hus] Hok].
  rewrite Hus in *. simpl. split; [eauto |].
  apply Forall_cons_2; [exact Hwf |]. apply Forall_app. split; [| exact Hok].
  apply checkCompletedRows_ok. exact Hwf.
Qed.

Lemma moveLeft_ok :
  (exists us, moveLeft s = Returns us) /\ Forall okUpdate (queued (moveLeft s)).
Proof.
  unfold moveLeft. destruct (currentPiece s) as [p |];
    [| split; [eauto | apply Forall_nil_2]].
  destruct (isValidMove _ _ _ _); (split; [eauto |]); [| apply Forall_nil_2].
  apply Forall_cons_2; [| apply Forall_nil_2]. intros q Hq. exact Hq.
Qed.

Lemma moveRight_ok :
  (exists us, moveRight s = Returns us) /\ Forall okUpdate (queued (moveRight s)).
Proof.
  unfold moveRight. destruct (currentPiece s) as [p |];
    [| split; [eauto | apply Forall_nil_2]].
  destruct (isValidMove _ _ _ _); (split; [eauto |]); [| apply Forall_nil_2].
  apply Forall_cons_2; [| apply Forall_nil_2]. intros q Hq. exact Hq.
Qed.

Lemma moveDown_ok (randKey : Key.t) :
  (exists us, moveDown s randKey = Returns us) /\
  Forall okUpdate (queued (moveDown s randKey)).
Proof.
  unfold moveDown. destruct (currentPiece s) as [p |] eqn:Hp;
    [| split; [eauto | apply Forall_nil_2]].
  destruct (isValidMove _ _ _ _).
  - split; [eauto |]. apply Forall_cons_2; [| apply Forall_nil_2]. intros q Hq. exact Hq.
  - apply placePiece_ok.
Qed.

Lemma rotate_ok :
  (exists us, rotate s = Returns us) /\ Forall okUpdate (queued (rotate s)).
Proof.
  unfold rotate. destruct (currentPiece s) as [p |] eqn:Hp;
    [| split; [eauto | apply Forall_nil_2]].
  pose proof (proj2 Hs p Hp) as Hshape.
  destruct (rotateShape_defined _ Hshape) as [rotated Hrot]. rewrite Hrot.
  pose proof (rotateShape_shapeOk _ _ Hshape Hrot) as Hrotated.
  assert (forall nx ny, Forall okUpdate [setCurrentPieceFn (rotatedPiece nx ny rotated)]) as Hset.
  { intros nx ny. apply Forall_cons_2; [| apply Forall_nil_2]. intros q _. exact Hrotated. }
  simpl.
  repeat (destruct (isValidMove _ _ _ _); simpl; [split; [eauto | apply Hset] |]).
  split; [eauto | apply Forall_nil_2].
Qed.

Lemma dropToBottom_ok (p : Piece.t) (randKey : Key.t) :
  currentPiece s = Some p ->
  exists us, dropToBottom (dropFuel p) s randKey = Some (Returns us) /\ Forall okUpdate us.
Proof.
  intros Hp. destruct (proj2 Hs p Hp) as (_ & _ & _ & r & c & Hcell).
  destruct (dropLoop_terminates (board s) (Piece.x p) (shape (Piece.tetromino p)) r c
              (dropFuel p) (Piece.y p) Hcell) as (newY & Hloop & _);
    [unfold dropFuel; lia |].
  unfold dropToBottom. rewrite Hp, Hloop.
  destruct (negb (newY =? Piece.y p)); [| exists []; split; [reflexivity | apply Forall_nil_2]].
  destruct (placePiece_ok randKey) as [[us Hus] Hok]. rewrite Hus in *. simpl.
  eexists. split; [reflexivity |].
  apply Forall_cons_2; [intros q Hq; exact Hq | exact Hok].
Qed.

Lemma handler_ok (c : Command) :
  exists us, handler s c = Some (Returns us) /\ Forall okUpdate us.
Proof.
  assert (exists us, Some (Returns []) = Some (Returns us) /\ Forall okUpdate us) as Hnil
    by (exists []; split; [reflexivity | apply Forall_nil_2]).
  assert (forall o, (exists us, o = Returns us) /\ Forall okUpdate (queued o) ->
            exists us, Some o = Some (Returns us) /\ Forall okUpdate us) as Hwrap.
  { intros o [[us ->] Hok]. exists us. split; [reflexivity | exact Hok]. }
  destruct c as [key randKey | | | | randKey | randKey | | randKey |]; simpl.
  - unfold handleKeyPress. destruct (gameOver s); [exact Hnil |].
    destruct key; try exact Hnil.
    + apply Hwrap, moveLeft_ok.
    + apply Hwrap, moveRight_ok.
    + apply Hwrap, moveDown_ok.
    + apply Hwrap, rotate_ok.
    + destruct (currentPiece s) as [p |] eqn:Hp; [| exact Hnil].
      apply dropToBottom_ok. exact Hp.
  - destruct (gameOver s); [exact Hnil | apply Hwrap, moveLeft_ok].
  - destruct (gameOver s); [exact Hnil | apply Hwrap, moveRight_ok].
  - destruct (gameOver s); [exact Hnil | apply Hwrap, rotate_ok].
  - destruct (gameOver s); [exact Hnil | apply Hwrap, moveDown_ok].
  - destruct (gameOver s); [exact Hnil | apply Hwrap, moveDown_ok].
  - exact Hnil.
  - destruct (currentPiece s); [exact Hnil |].
    destruct (gameOver s); [exact Hnil | apply Hwrap, spawnNewPiece_ok].
  - eexists. split; [reflexivity |]. unfold resetGame.
    apply Forall_cons_2; [exact wellFormed_createEmptyBoard |].
    apply Forall_cons_2; [intros q Hq; discriminate |].
    repeat (apply Forall_cons_2; [exact Logic.I |]). apply Forall_nil_2.
Qed.
End OkUpdates.

Lemma okUpdate_applyUpdate (w : World) (u : Update) :
  worldOk w -> okUpdate u -> worldOk (applyUpdate w u).
Proof.
  intros [[Hb Hp] Ht] Hu. unfold worldOk, stateOk, applyUpdate.
  destruct u; simpl in *; try (split; [split |]; assumption).
  - split; [split |]; try assumption. intros q Hq.
    destruct (currentPiece (st w)) as [q0 |]; [| discriminate]. simpl in Hq.
    injection Hq as <-. apply Hu, Hp. reflexivity.
  - split; [split |]; try assumption. apply Forall_app. split; [exact Ht |].
    apply Forall_cons_2; [exact Hu | apply Forall_nil_2].
Qed.

Lemma okUpdate_applyUpdates (us : list Update) (w : World) :
  worldOk w -> Forall okUpdate us -> worldOk (applyUpdates w us).
Proof.
  unfold applyUpdates. revert w. induction us as [| u us IH]; intros w Hw Hus; simpl;
    [exact Hw |].
  apply Forall_cons in Hus as [Hu Hus]. apply IH; [| exact Hus].
  apply okUpdate_applyUpdate; assumption.
Qed.

(** Every event is defined on a well-formed session (no handler throws,
    the hard-drop loop ends) and leads to a well-formed session. *)
Lemma step_ok (w : World) (c : Command) :
  worldOk w -> exists w', step w c = Some w' /\ worldOk w'.
Proof.
  intros Hw. destruct (handler_ok (st w) (proj1 Hw) c) as (us & Hh & Hok).
  assert (exists w', match handler (st w) c with
                     | None => None
                     | Some o => Some (applyUpdates w (queued o))
                     end = Some w' /\ worldOk w') as Hgeneric.
  { rewrite Hh. eexists. split; [reflexivity |]. apply okUpdate_applyUpdates; assumption. }
  destruct c; try exact Hgeneric. clear Hgeneric Hh Hok us. unfold step.
  destruct (timeouts w) as [| task rest] eqn:Hq; [eauto |].
  eexists. split; [reflexivity |]. destruct Hw as [Hst Hts]. rewrite Hq in Hts.
  apply Forall_cons in Hts as [Htask Hrest].
  apply okUpdate_applyUpdates; [split; [exact Hst | exact Hrest] |].
  unfold clearCallback. apply Forall_app. split.
  - apply Forall_cons_2; [apply clearCallback_board_wellFormed; exact Htask |].
    repeat (apply Forall_cons_2; [exact Logic.I |]). apply Forall_nil_2.
  - destruct (_ >? _); repeat (apply Forall_cons_2; [exact Logic.I |]); apply Forall_nil_2.
Qed.

Lemma initialWorld_ok : worldOk initialWorld.
Proof.
  split; [split |].
  - exact wellFormed_createEmptyBoard.
  - intros p Hp. discriminate.
  - apply Forall_nil_2.
Qed.

(** Every sequence of events from the initial world runs to the end and
    ends in a well-formed session. *)
Lemma run_ok (cs : list Command) (w : World) :
  worldOk w -> exists w', run w cs = Some w' /\ worldOk w'.
Proof.
  revert w. induction cs as [| c cs IH]; intros w Hw; simpl; [eauto |].
  destruct (step_ok w c Hw) as (w1 & Hstep & Hw1). rewrite Hstep. apply IH. exact Hw1.
Qed.

(** * Further properties of the engine *)

(** ** Sideways moves and the soft drop *)

Lemma collidesAt_left_of_board (b : Board) (newX newY : Z) :
  newX < 0 -> collidesAt b newX newY = true.
Proof.
  intros H. unfold collidesAt. destruct (Z.ltb_spec newX 0); [reflexivity | lia].
Qed.

Lemma collidesAt_right_of_board (b : Board) (newX newY : Z) :
  newX >= BOARD_WIDTH -> collidesAt b newX newY = true.
Proof.
  intros H. unfold collidesAt. destruct (Z.geb_spec newX BOARD_WIDTH); [| lia].
  rewrite orb_true_r. reflexivity.
Qed.

Lemma collidesAt_occupied (b : Board) (newX newY : Z) :
  occupied b newX newY -> collidesAt b newX newY = true.
Proof.
  intros (Hx & Hy & row & v & Hrow & Hv & Hnz). unfold collidesAt.
  destruct (Z.geb_spec newY 0); [| lia]. rewrite Hrow. unfold elemAt. rewrite Hv. simpl.
  apply nonzero_true in Hnz. rewrite Hnz. apply orb_true_r.
Qed.

(** X1.  A piece with a nonzero shape entry in board column 0 is not
    moved by [moveLeft], and one with a nonzero entry in board column 9
    is not moved by [moveRight]: nothing is queued. *)
Theorem wall_stops_sideways_move (s : State) (p : Piece.t) (r c : nat) :
  currentPiece s = Some p ->
  shapeCell (shape (Piece.tetromino p)) r c ->
  (Piece.x p + Z.of_nat c = 0 -> moveLeft s = Returns []) /\
  (Piece.x p + Z.of_nat c = 9 -> moveRight s = Returns []).
Proof.
  intros Hp Hcell. split; intros Hwall.
  - unfold moveLeft, isValidMove. rewrite Hp.
    assert (checkCollision (board s) (Piece.x p - 1) (Piece.y p)
              (shape (Piece.tetromino p)) = true) as ->; [| reflexivity].
    apply checkCollision_true. exists r, c. split; [exact Hcell |].
    apply collidesAt_left_of_board. lia.
  - unfold moveRight, isValidMove. rewrite Hp.
    assert (checkCollision (board s) (Piece.x p + 1) (Piece.y p)
              (shape (Piece.tetromino p)) = true) as ->; [| reflexivity].
    apply checkCollision_true. exists r, c. split; [exact Hcell |].
    apply collidesAt_right_of_board. unfold BOARD_WIDTH. lia.
Qed.

Lemma wall_stops_sideways_move_witness :
  let p := {| Piece.x := 0; Piece.y := 5; Piece.tetromino := randomTetromino Key.O |} in
  let s := applyState initialState (setCurrentPiece (Some p)) in
  moveLeft s = Returns [].
Proof.
  intros p s.
  refine (proj1 (wall_stops_sideways_move s p 0 0 eq_refl _) eq_refl).
  exists [Num 1; Num 1], (Num 1). repeat split; discriminate.
Defined.



Lemma step_handler (w : World) (c : Command) :
  c <> TimeoutFires ->
  step w c = match handler (st w) c with
             | None => None
             | Some o => Some (applyUpdates w (queued o))
             end.
Proof. intros Hc. destruct c; congruence || reflexivity. Qed.

Lemma moveLeft_movesTo (s : State) : movesTo s (queued (moveLeft s)).
Proof.
  unfold moveLeft. destruct (currentPiece s) as [p |] eqn:Hp; [| left; reflexivity].
  destruct (isValidMove _ _ _ _) eqn:Hvalid; [| left; reflexivity].
  right. eexists. split; [reflexivity |]. intros q Hq.
  assert (q = p) as -> by congruence. simpl.
  unfold isValidMove in Hvalid. apply negb_true_iff in Hvalid. exact Hvalid.
Qed.

Lemma moveRight_movesTo (s : State) : movesTo s (queued (moveRight s)).
Proof.
  unfold moveRight. destruct (currentPiece s) as [p |] eqn:Hp; [| left; reflexivity].
  destruct (isValidMove _ _ _ _) eqn:Hvalid; [| left; reflexivity].
  right. eexists. split; [reflexivity |]. intros q Hq.
  assert (q = p) as -> by congruence. simpl.
  unfold isValidMove in Hvalid. apply negb_true_iff in Hvalid. exact Hvalid.
Qed.

Lemma rotate_movesTo (s : State) : movesTo s (queued (rotate s)).
Proof.
  unfold rotate. destruct (currentPiece s) as [p |] eqn:Hp; [| left; reflexivity].
  destruct (rotateShape (shape (Piece.tetromino p))) as [rotated |]; [| left; reflexivity].
  assert (forall nx ny, isValidMove (board s) nx ny rotated = true ->
            movesTo s [setCurrentPieceFn (rotatedPiece nx ny rotated)]) as Hok.
  { intros nx ny Hvalid. right. eexists. split; [reflexivity |]. intros q _. simpl.
    unfold isValidMove in Hvalid. apply negb_true_iff in Hvalid. exact Hvalid. }
  simpl.
  destruct (isValidMove (board s) (Piece.x p) (Piece.y p) rotated) eqn:E0; simpl;
    [apply Hok; exact E0 |].
  destruct (isValidMove (board s) (Piece.x p - 1) (Piece.y p) rotated) eqn:E1;
    [apply Hok; exact E1 |].
  destruct (isValidMove (board s) (Piece.x p + 1) (Piece.y p) rotated) eqn:E2;
    [apply Hok; exact E2 |].
  destruct (isValidMove (board s) (Piece.x p) (Piece.y p - 1) rotated) eqn:E3;
    [apply Hok; exact E3 |].
  left. reflexivity.
Qed.




(** X4.  [moveDown] locks a piece that rests on the floor (a nonzero
    entry in row 19) or on the stack (a nonzero entry right above an
    occupied board cell): it does what [placePiece] does. *)
Theorem moveDown_locks_resting_piece (s : State) (p : Piece.t) (randKey : Key.t) (r c : nat) :
  currentPiece s = Some p ->
  shapeCell (shape (Piece.tetromino p)) r c ->
  Piece.y p + Z.of_nat r = 19 \/
  occupied (board s) (Piece.x p + Z.of_nat c) (Piece.y p + 1 + Z.of_nat r) ->
  moveDown s randKey = placePiece s randKey.
Proof.
  intros Hp Hcell Hrest. unfold moveDown, isValidMove. rewrite Hp.
  assert (checkCollision (board s) (Piece.x p) (Piece.y p + 1)
            (shape (Piece.tetromino p)) = true) as ->; [| reflexivity].
  destruct Hrest as [Hfloor | Hstack].
  - apply (collides_below_floor _ _ _ _ r c Hcell). unfold BOARD_HEIGHT. lia.
  - apply checkCollision_true. exists r, c. split; [exact Hcell |].
    apply collidesAt_occupied. exact Hstack.
Qed.

Lemma moveDown_locks_resting_piece_witness :
  let p := {| Piece.x := 4; Piece.y := 18; Piece.tetromino := randomTetromino Key.O |} in
  let s := applyState initialState (setCurrentPiece (Some p)) in
  moveDown s Key.I = placePiece s Key.I.
Proof.
  intros p s.
  apply (moveDown_locks_resting_piece s p Key.I 1 0 eq_refl).
  - exists [Num 1; Num 1], (Num 1). repeat split; discriminate.
  - left. reflexivity.
Defined.

(** ** Four quarter turns *)

Lemma isMatrix_of_shape (sh : Shape) :
  sh <> [] -> rectangular sh -> isMatrix (length sh) (shapeWidth sh) sh.
Proof.
  intros Hne Hrect. destruct sh as [| row0 rest]; [congruence |].
  split; [reflexivity | exact Hrect].
Qed.

Lemma rotateShape_isMatrix (R C : nat) (sh : Shape) :
  isMatrix R C sh -> (0 < R)%nat ->
  exists rotated, rotateShape sh = Some rotated /\ isMatrix C R rotated /\
    forall i j, (i < C)%nat -> (j < R)%nat ->
      entry rotated i j = entry sh (R - S j) i.
Proof.
  intros [Hlen Hrows] HR.
  destruct sh as [| row0 rest] eqn:Hsh; [simpl in Hlen; lia |]. rewrite <- Hsh in *.
  assert (rotateShape sh = Some ((fun i => reverse ((fun row => elemAt row i) <$> sh))
                                   <$> seq 0 (length row0))) as Hrot
    by (rewrite Hsh; reflexivity).
  assert (shapeWidth sh = C) as Hwidth.
  { rewrite Hsh in *. simpl. apply Forall_cons in Hrows as [H0 _]. exact H0. }
  eexists. split; [exact Hrot |].
  destruct (rotateShape_rows _ _ Hrot) as [Hl Hr]. rewrite Hwidth in Hl. rewrite Hlen in Hr.
  split; [split; assumption |].
  intros i j Hi Hj.
  destruct (rotateShape_entry sh _ i j Hrot) as (cells & Hcells & Hentry); [lia | lia |].
  unfold entry at 1. rewrite Hcells. simpl. unfold elemAt at 1. rewrite Hentry. simpl.
  rewrite Hlen. reflexivity.
Qed.

Lemma isMatrix_ext (R C : nat) (a b : Shape) :
  isMatrix R C a -> isMatrix R C b ->
  (forall i j, (i < R)%nat -> (j < C)%nat -> entry a i j = entry b i j) ->
  a = b.
Proof.
  intros [Hla Hra] [Hlb Hrb] Hsame. apply list_eq. intros i.
  destruct (decide (i < R)%nat) as [Hi | Hi].
  - destruct (lookup_lt_is_Some_2 a i) as [ra Ha]; [lia |].
    destruct (lookup_lt_is_Some_2 b i) as [rb Hb]; [lia |].
    rewrite Ha, Hb. f_equal.
    assert (length ra = C) as Hca
      by (rewrite Forall_forall in Hra; apply Hra, list_elem_of_lookup; eauto).
    assert (length rb = C) as Hcb
      by (rewrite Forall_forall in Hrb; apply Hrb, list_elem_of_lookup; eauto).
    apply list_eq. intros j. destruct (decide (j < C)%nat) as [Hj | Hj].
    + specialize (Hsame i j Hi Hj). unfold entry, elemAt in Hsame.
      rewrite Ha, Hb in Hsame. simpl in Hsame.
      destruct (lookup_lt_is_Some_2 ra j) as [va Hva]; [lia |].
      destruct (lookup_lt_is_Some_2 rb j) as [vb Hvb]; [lia |].
      rewrite Hva, Hvb in *. simpl in Hsame. congruence.
    + rewrite !lookup_ge_None_2 by lia. reflexivity.
  - rewrite !lookup_ge_None_2 by lia. reflexivity.
Qed.

(** X5.  Four quarter turns of a non-empty rectangular shape with at
    least one column give the shape back; none of the four turns
    throws. *)
Theorem four_rotations_identity (sh : Shape) :
  sh <> [] -> rectangular sh -> (0 < shapeWidth sh)%nat ->
  rotateTimes 4 sh = Some sh.
Proof.
  intros Hne Hrect HC.
  pose proof (isMatrix_of_shape sh Hne Hrect) as Hm.
  set (R := length sh) in *. set (C := shapeWidth sh) in *.
  assert (0 < R)%nat as HR by (subst R; destruct sh; [congruence | simpl; lia]).
  destruct (rotateShape_isMatrix R C sh Hm HR) as (r1 & E1 & M1 & F1).
  destruct (rotateShape_isMatrix C R r1 M1 HC) as (r2 & E2 & M2 & F2).
  destruct (rotateShape_isMatrix R C r2 M2 HR) as (r3 & E3 & M3 & F3).
  destruct (rotateShape_isMatrix C R r3 M3 HC) as (r4 & E4 & M4 & F4).
  simpl. rewrite E1, E2, E3, E4. f_equal.
  apply (isMatrix_ext R C); [exact M4 | exact Hm |].
  intros i j Hi Hj.
  rewrite F4, F3, F2, F1 by lia.
  replace (R - S (R - S i))%nat with i by lia.
  replace (C - S (C - S j))%nat with j by lia.
  reflexivity.
Qed.

Lemma four_rotations_identity_witness :
  rotateTimes 4 (shape (randomTetromino Key.S)) = Some (shape (randomTetromino Key.S)).
Proof.
  apply four_rotations_identity.
  - discriminate.
  - simpl. repeat constructor.
  - simpl. lia.
Defined.

(** ** The loop of the hard drop *)



(** ** Sessions from the initial state *)

(** X7.  Every sequence of events from the initial state runs to its
    end: the hard-drop loop always ends.  The session it reaches has a
    20 x 10 board, an active piece (if any) whose shape is a non-empty
    rectangular matrix with a nonzero entry, and 20 x 10 boards in its
    pending callbacks; and in it no handler throws, whatever the next
    event is. *)
Theorem every_run_well_formed (cs : list Command) :
  exists w, run initialWorld cs = Some w /\ worldOk w /\
    forall c, exists us, handler (st w) c = Some (Returns us).
Proof.
  destruct (run_ok cs initialWorld initialWorld_ok) as (w & Hrun & Hw).
  exists w. split; [exact Hrun |]. split; [exact Hw |].
  intros c. destruct (handler_ok (st w) (proj1 Hw) c) as (us & Hus & _). eauto.
Qed.

(** X8.  No event other than the reset button lowers the level or
    clears the game-over flag, and none raises a drop interval that is
    not negative. *)
Theorem events_monotone (w w' : World) (c : Command) :
  c <> ResetButton -> step w c = Some w' ->
  level (st w) <= level (st w') /\
  (gameOver (st w) = true -> gameOver (st w') = true) /\
  ((0 <= dropTime (st w))%Q ->
   (0 <= dropTime (st w'))%Q /\ (dropTime (st w') <= dropTime (st w))%Q).
Proof. exact (step_monotone w w' c). Qed.

Lemma events_monotone_witness :
  let w := {| st := initialState;
              timeouts := [{| boardToCheck := createEmptyBoard;
                              completedRowIndices := [19%nat; 18%nat; 17%nat; 16%nat; 15%nat];
                              cl_score := 0; cl_level := 1 |}] |} in
  let w' := applyUpdates {| st := st w; timeouts := [] |}
              (clearCallback {| boardToCheck := createEmptyBoard;
                                completedRowIndices := [19%nat; 18%nat; 17%nat; 16%nat; 15%nat];
                                cl_score := 0; cl_level := 1 |}) in
  level (st w) <= level (st w') /\
  (gameOver (st w) = true -> gameOver (st w') = true) /\
  ((0 <= dropTime (st w))%Q ->
   (0 <= dropTime (st w'))%Q /\ (dropTime (st w') <= dropTime (st w))%Q).
Proof.
  intros w w'. apply (events_monotone w w' TimeoutFires).
  - discriminate.
  - reflexivity.
Defined.

(** X9.  Keys, touch buttons, ticks of the fall timer and the spawn
    effect never change the score: only a deferred callback that fires
    and the reset button do. *)
Theorem only_callbacks_change_score (w w' : World) (c : Command) :
  playEvent c = true -> step w c = Some w' -> score (st w') = score (st w).
Proof.
  intros Hc. apply step_keeps_score; intros ->; discriminate.
Qed.

Lemma only_callbacks_change_score_witness :
  let w := {| st := applyState initialState (setCurrentPiece (Some
                 {| Piece.x := 4; Piece.y := 18; Piece.tetromino := randomTetromino Key.O |}));
              timeouts := [] |} in
  score (st (applyUpdates w (queued (moveDown (st w) Key.T)))) = score (st w).
Proof.
  intros w.
  apply (only_callbacks_change_score w _ (KeyPress ArrowDown Key.T)); reflexivity.
Defined.

(** X11.  Once the game is over, keys, touch buttons, ticks of the fall
    timer and the spawn effect leave the whole session as it is. *)
Theorem game_over_blocks_play (w : World) (c : Command) :
  gameOver (st w) = true -> playEvent c = true -> step w c = Some w.
Proof.
  intros Hover Hc. rewrite step_handler by (intros ->; discriminate).
  destruct c as [key randKey | | | | randKey | randKey | | randKey |];
    try discriminate; simpl; unfold handleKeyPress; rewrite Hover;
    try reflexivity.
  destruct (currentPiece (st w)); reflexivity.
Qed.

Lemma game_over_blocks_play_witness :
  let w := {| st := applyState initialState (setGameOver true); timeouts := [] |} in
  step w (KeyPress Space Key.I) = Some w.
Proof.
  intros w. apply game_over_blocks_play; reflexivity.
Defined.

(** X12.  While there is no active piece, keys, touch buttons and ticks
    of the fall timer leave the whole session as it is: nothing moves,
    nothing is locked, no piece is spawned. *)
Theorem no_piece_no_move (w : World) (c : Command) :
  currentPiece (st w) = None -> pieceEvent c = true -> step w c = Some w.
Proof.
  intros Hnone Hc. rewrite step_handler by (intros ->; discriminate).
  destruct c as [key randKey | | | | randKey | randKey | | randKey |];
    try discriminate; simpl;
    unfold handleKeyPress, moveLeft, moveRight, moveDown, rotate; rewrite Hnone;
    destruct (gameOver (st w)); try reflexivity.
  destruct key; reflexivity.
Qed.

Lemma no_piece_no_move_witness :
  step initialWorld (Interval Key.I) = Some initialWorld.
Proof. apply no_piece_no_move; reflexivity. Defined.

(** ** Score, level and drop interval in range *)

Ltac captures_list :=
  repeat first
    [ apply Forall_nil_2
    | apply Forall_cons_2; [first [exact Logic.I | split; reflexivity] |] ].

Lemma placePiece_captures (s : State) (randKey : Key.t) :
  Forall (capturesFrom s) (queued (placePiece s randKey)).
Proof.
  unfold placePiece. destruct (currentPiece s) as [p |]; [| captures_list].
  destruct (placeRows (board s) p (shape (Piece.tetromino p)) 0) as [nb |];
    [| captures_list].
  rewrite queued_andThen. apply Forall_app. split.
  - unfold checkCompletedRows.
    destruct (0 <? length (collectCompleted nb 0))%nat; captures_list.
  - destruct randKey; unfold spawnNewPiece; simpl;
      match goal with
      | |- context [checkCollision ?b ?x ?y ?sh] => destruct (checkCollision b x y sh)
      end; simpl; captures_list.
Qed.

Lemma handler_captures (s : State) (c : Command) (o : Outcome) :
  handler s c = Some o -> Forall (capturesFrom s) (queued o).
Proof.
  assert (forall randKey, Forall (capturesFrom s) (queued (moveDown s randKey))) as Hdown.
  { intros randKey. unfold moveDown. destruct (currentPiece s); [| captures_list].
    destruct (isValidMove _ _ _ _); [captures_list | apply placePiece_captures]. }
  assert (forall us, movesTo s us -> Forall (capturesFrom s) us) as Hmoves.
  { intros us [-> | (f & -> & _)]; captures_list. }
  intros Ho. destruct c as [key randKey | | | | randKey | randKey | | randKey |];
    simpl in Ho.
  - unfold handleKeyPress in Ho. destruct (gameOver s); [injection Ho as <-; captures_list |].
    destruct key; try (injection Ho as <-).
    + apply Hmoves, moveLeft_movesTo.
    + apply Hmoves, moveRight_movesTo.
    + apply Hdown.
    + apply Hmoves, rotate_movesTo.
    + destruct (currentPiece s) as [p |] eqn:Hp; [| injection Ho as <-; captures_list].
      unfold dropToBottom in Ho. rewrite Hp in Ho.
      destruct (dropLoop _ _ _ _ _) as [newY |]; [| discriminate].
      destruct (negb (newY =? Piece.y p)); [| injection Ho as <-; captures_list].
      match type of Ho with
      | Some ?o' = Some _ => replace o with o' by congruence
      end.
      rewrite queued_andThen. apply Forall_cons_2; [exact Logic.I |].
      apply placePiece_captures.
    + captures_list.
  - injection Ho as <-. destruct (gameOver s); [captures_list | apply Hmoves, moveLeft_movesTo].
  - injection Ho as <-. destruct (gameOver s); [captures_list | apply Hmoves, moveRight_movesTo].
  - injection Ho as <-. destruct (gameOver s); [captures_list | apply Hmoves, rotate_movesTo].
  - injection Ho as <-. destruct (gameOver s); [captures_list | apply Hdown].
  - injection Ho as <-. destruct (gameOver s); [captures_list | apply Hdown].
  - injection Ho as <-. captures_list.
  - injection Ho as <-. destruct (currentPiece s); [captures_list |].
    destruct (gameOver s); [captures_list |].
    destruct randKey; unfold spawnNewPiece; simpl;
      match goal with
      | |- context [checkCollision ?b ?x ?y ?sh] => destruct (checkCollision b x y sh)
      end; simpl; captures_list.
  - injection Ho as <-. unfold resetGame. captures_list.
Qed.

Lemma applyUpdates_timeouts (us : list Update) (w : World) :
  timeouts (applyUpdates w us) = timeouts w ++ scheduled us.
Proof.
  unfold applyUpdates, scheduled. revert w.
  induction us as [| u us IH]; intros w; simpl; [rewrite app_nil_r; reflexivity |].
  rewrite IH. destruct u; simpl; try reflexivity.
  rewrite <- app_assoc. reflexivity.
Qed.

Lemma scheduled_captured (s : State) (us : list Update) :
  Forall (capturesFrom s) us -> scoreOk (score s) (level s) ->
  Forall (fun task => scoreOk (cl_score task) (cl_level task)) (scheduled us).
Proof.
  intros Hus Hs. unfold scheduled.
  induction us as [| u us IH]; simpl; [apply Forall_nil_2 |].
  apply Forall_cons in Hus as [Hu Hrest].
  destruct u; simpl; try (apply IH; exact Hrest).
  apply Forall_cons_2; [| apply IH; exact Hrest].
  simpl in Hu. destruct Hu as [-> ->]. exact Hs.
Qed.

Lemma clearCallback_scoreOk (task : ClearTask) :
  scoreOk (cl_score task) (cl_level task) ->
  0 <= cl_score task + Z.of_nat (length (completedRowIndices task)) * 100 * cl_level task.
Proof. intros (Hpos & Hlevel). nia. Qed.

Lemma clearCallback_schedules_nothing (task : ClearTask) :
  scheduled (clearCallback task) = [].
Proof. unfold clearCallback. simpl. destruct (_ >? _); reflexivity. Qed.

Lemma step_countersOk (w w' : World) (c : Command) :
  countersOk w -> step w c = Some w' -> countersOk w'.
Proof.
  intros (Hscore & Htasks & Hd0 & Hd1) Hstep.
  assert (c = TimeoutFires \/ c = ResetButton \/ (c <> TimeoutFires /\ c <> ResetButton))
    as [-> | [-> | [Hnt Hnr]]]
    by (destruct c; auto; right; right; split; discriminate).
  - unfold step in Hstep. destruct (timeouts w) as [| task rest] eqn:Hq.
    + injection Hstep as <-. unfold countersOk. rewrite Hq. auto.
    + assert (w' = applyUpdates {| st := st w; timeouts := rest |} (clearCallback task))
        as -> by congruence.
      apply Forall_cons in Htasks as [Htask Hrest].
      pose proof (clearCallback_scoreOk task Htask) as Hpos.
      destruct (tame_foldl _ (st w) (clearCallback_tame task)) as (Hl & _ & Hd).
      destruct (Hd Hd0) as [Hd0' Hd1'].
      destruct (clearCallback_scoring (st w) task) as (Hs & _).
      unfold countersOk, scoreOk.
      rewrite applyUpdates_timeouts, clearCallback_schedules_nothing, app_nil_r.
      rewrite applyUpdates_st. cbn [st timeouts]. rewrite Hs.
      destruct Hscore as (_ & Hlevel).
      split; [split; [exact Hpos | lia] |].
      split; [exact Hrest |]. split; [exact Hd0' | eapply Qle_trans; eassumption].
  - destruct (reset_keeps_timeouts w w' Hstep) as [Hst Hto].
    unfold countersOk, scoreOk. rewrite Hst, Hto. simpl.
    split; [split; lia |].
    split; [exact Htasks |]. split; [discriminate | apply Qle_refl].
  - rewrite step_handler in Hstep by exact Hnt.
    destruct (handler (st w) c) as [o |] eqn:Ho; [| discriminate].
    injection Hstep as <-.
    pose proof (handler_quiet _ _ _ Hnr Ho) as Hquiet.
    assert (Forall tame (queued o)) as Htame
      by (eapply Forall_impl; [exact Hquiet | intros u [Hu _]; exact Hu]).
    assert (Forall keepsScore (queued o)) as Hkeep
      by (eapply Forall_impl; [exact Hquiet | intros u [_ Hu]; exact Hu]).
    destruct (tame_foldl _ (st w) Htame) as (Hl & _ & Hd).
    destruct (Hd Hd0) as [Hd0' Hd1'].
    unfold countersOk, scoreOk.
    rewrite applyUpdates_timeouts, applyUpdates_st, (keepsScore_foldl _ _ Hkeep).
    destruct Hscore as (Hpos & Hlevel).
    split; [split; [exact Hpos | lia] |].
    split; [| split; [exact Hd0' | eapply Qle_trans; eassumption]].
    apply Forall_app. split; [exact Htasks |].
    apply (scheduled_captured (st w)); [exact (handler_captures _ _ _ Ho) |].
    split; assumption.
Qed.

Lemma run_countersOk (cs : list Command) (w w' : World) :
  countersOk w -> run w cs = Some w' -> countersOk w'.
Proof.
  revert w. induction cs as [| c cs IH]; intros w Hw Hrun; simpl in Hrun.
  - injection Hrun as <-. exact Hw.
  - destruct (step w c) as [w1 |] eqn:Hstep; [| discriminate].
    apply (IH w1); [| exact Hrun]. apply (step_countersOk w w1 c); assumption.
Qed.

Lemma initialWorld_countersOk : countersOk initialWorld.
Proof.
  unfold countersOk, scoreOk. simpl.
  split; [split; lia |].
  split; [apply Forall_nil_2 |]. split; [discriminate | apply Qle_refl].
Qed.

(** X10.  After every sequence of events from the initial state,
    resets and stale callbacks included, the score is not negative, the
    level is at least 1, and the drop interval lies between 0 and its
    initial value 800.  The pending callbacks are part of the invariant:
    the score and the level they captured are in range too. *)
Theorem counters_in_range (cs : list Command) :
  exists w, run initialWorld cs = Some w /\
    0 <= score (st w) /\ 1 <= level (st w) /\
    (0 <= dropTime (st w))%Q /\ (dropTime (st w) <= INITIAL_DROP_TIME)%Q /\
    Forall (fun task => 0 <= cl_score task /\ 1 <= cl_level task) (timeouts w).
Proof.
  destruct (run_ok cs initialWorld initialWorld_ok) as (w & Hrun & _).
  exists w. split; [exact Hrun |].
  destruct (run_countersOk cs initialWorld w initialWorld_countersOk Hrun)
    as ((Hpos & Hlevel) & Htasks & Hd0 & Hd1).
  repeat split; assumption.
Qed.

(** ** Spawning on a clear top, and after a reset *)

(** X13.  When columns 3 to 6 of rows 0 and 1 of the board are empty,
    [spawnNewPiece] never ends the game, whatever piece is drawn: its
    only update makes the drawn piece the active piece, at row 0 and
    column 5 - floor(width / 2). *)
Theorem spawn_succeeds_on_clear_top (s : State) (randKey : Key.t) :
  (forall cy cx, (cy < 2)%nat -> (3 <= cx <= 6)%nat ->
     cellAt (board s) cy cx = Some (Num 0)) ->
  spawnNewPiece s randKey =
  Returns [setCurrentPiece (Some
    {| Piece.x := 5 - Z.of_nat (shapeWidth (shape (randomTetromino randKey))) / 2;
       Piece.y := 0;
       Piece.tetromino := randomTetromino randKey |})].
Proof.
  intros Hclear.
  destruct (board s !! 0%nat) as [row0 |] eqn:H0;
    [| specialize (Hclear 0%nat 3%nat); unfold cellAt in Hclear; rewrite H0 in Hclear;
       discriminate Hclear; lia].
  destruct (board s !! 1%nat) as [row1 |] eqn:H1;
    [| specialize (Hclear 1%nat 3%nat); unfold cellAt in Hclear; rewrite H1 in Hclear;
       discriminate Hclear; lia].
  assert (forall cx, (3 <= cx <= 6)%nat -> row0 !! cx = Some (Num 0)) as Hr0.
  { intros cx Hcx. specialize (Hclear 0%nat cx). unfold cellAt in Hclear.
    rewrite H0 in Hclear. apply Hclear; lia. }
  assert (forall cx, (3 <= cx <= 6)%nat -> row1 !! cx = Some (Num 0)) as Hr1.
  { intros cx Hcx. specialize (Hclear 1%nat cx). unfold cellAt in Hclear.
    rewrite H1 in Hclear. apply Hclear; lia. }
  pose proof (Hr0 3%nat ltac:(lia)) as H03. pose proof (Hr0 4%nat ltac:(lia)) as H04.
  pose proof (Hr0 5%nat ltac:(lia)) as H05. pose proof (Hr0 6%nat ltac:(lia)) as H06.
  pose proof (Hr1 3%nat ltac:(lia)) as H13. pose proof (Hr1 4%nat ltac:(lia)) as H14.
  pose proof (Hr1 5%nat ltac:(lia)) as H15. pose proof (Hr1 6%nat ltac:(lia)) as H16.
  destruct randKey; unfold spawnNewPiece, checkCollision, BOARD_WIDTH; simpl;
    unfold collidesAt, elemAt; simpl;
    repeat match goal with
           | |- context [Z.to_nat ?e] =>
               let v := eval vm_compute in (Z.to_nat e) in
               progress change (Z.to_nat e) with v
           end;
    rewrite ?H0, ?H1; simpl;
    rewrite ?H03, ?H04, ?H05, ?H06, ?H13, ?H14, ?H15, ?H16; simpl;
    reflexivity.
Qed.

Lemma spawn_succeeds_on_clear_top_witness :
  spawnNewPiece initialState Key.Z =
  Returns [setCurrentPiece (Some
    {| Piece.x := 5 - Z.of_nat (shapeWidth (shape (randomTetromino Key.Z))) / 2;
       Piece.y := 0;
       Piece.tetromino := randomTetromino Key.Z |})].
Proof.
  apply spawn_succeeds_on_clear_top.
  intros cy cx Hcy Hcx.
  destruct cy as [| [| cy]]; [| | lia];
    (destruct cx as [| [| [| [| [| [| [| cx]]]]]]]; try lia; reflexivity).
Defined.

(** X14.  Whatever the session, the reset button followed by the spawn
    effect gives the initial state with the drawn piece as the active
    piece at its spawn position, the game not over; the pending
    timeouts are those from before the reset. *)
Theorem reset_then_spawn (w : World) (randKey : Key.t) :
  exists w1 w2,
    step w ResetButton = Some w1 /\
    step w1 (SpawnEffect randKey) = Some w2 /\
    st w2 = applyState initialState (setCurrentPiece (Some
      {| Piece.x := 5 - Z.of_nat (shapeWidth (shape (randomTetromino randKey))) / 2;
         Piece.y := 0;
         Piece.tetromino := randomTetromino randKey |})) /\
    timeouts w2 = timeouts w.
Proof.
  eexists. eexists. split; [reflexivity |].
  assert (spawnNewPiece initialState randKey =
          Returns [setCurrentPiece (Some
            {| Piece.x := 5 - Z.of_nat (shapeWidth (shape (randomTetromino randKey))) / 2;
               Piece.y := 0;
               Piece.tetromino := randomTetromino randKey |})]) as Hspawn
    by (destruct randKey; vm_compute; reflexivity).
  unfold step, handler.
  change (st (applyUpdates w (queued (Returns resetGame)))) with initialState.
  change (currentPiece initialState) with (@None Piece.t).
  change (gameOver initialState) with false. cbv iota.
  rewrite Hspawn. split; [reflexivity |]. split; reflexivity.
Qed.

(** ** What a row removal leaves *)

Lemma collectCompleted_none (rows : Board) (i : nat) :
  Forall (fun row => rowIsFull row = false) rows -> collectCompleted rows i = [].
Proof.
  revert i. induction rows as [| row rest IH]; intros i Hall; simpl; [reflexivity |].
  apply Forall_cons in Hall as [-> Hrest]. apply IH. exact Hrest.
Qed.

(** X15.  When the callback that [checkCompletedRows] scheduled for a
    20 x 10 board fires, in whatever state, the board of the state
    afterwards is that board with one empty row on top per full row and
    its other rows in their order; it is 20 x 10 again and has no full
    row, so a scan of it reports no completed row and schedules
    nothing.  The callback leaves the queue, and adds nothing to it. *)
Theorem clear_leaves_no_full_row
    (w : World) (s : State) (b : Board) (task : ClearTask) (rest : list ClearTask) :
  wellFormed b ->
  In (setTimeout task) (checkCompletedRows s b) ->
  timeouts w = task :: rest ->
  exists w',
    step w TimeoutFires = Some w' /\
    timeouts w' = rest /\
    board (st w') =
      replicate (length (filter (fun row => rowIsFull row = true) b)) emptyRow ++
      filter (fun row => rowIsFull row = false) b /\
    wellFormed (board (st w')) /\
    Forall (fun row => rowIsFull row = false) (board (st w')) /\
    collectCompleted (board (st w')) 0 = [] /\
    checkCompletedRows (st w') (board (st w')) = [].
Proof.
  intros Hwf Hin Hq.
  exists (applyUpdates {| st := st w; timeouts := rest |} (clearCallback task)).
  split; [unfold step; rewrite Hq; reflexivity |].
  split.
  { rewrite applyUpdates_timeouts, clearCallback_schedules_nothing, app_nil_r.
    reflexivity. }
  rewrite applyUpdates_st. cbn [st].
  destruct (scheduled_clear_board s (st w) b task (proj1 Hwf) Hin) as (Hboard & Hidx & _).
  cbv zeta in Hboard.
  assert (wellFormed (board (foldl applyState (st w) (clearCallback task)))) as Hwf'.
  { rewrite clearCallback_board. apply clearCallback_board_wellFormed.
    unfold checkCompletedRows in Hin.
    destruct (0 <? length (collectCompleted b 0))%nat; [| destruct Hin].
    destruct Hin as [Hin | [Hin | []]]; [discriminate |]. injection Hin as <-.
    exact Hwf. }
  set (s' := foldl applyState (st w) (clearCallback task)) in *.
  assert (Forall (fun row => rowIsFull row = false) (board s')) as Hnone.
  { rewrite Hboard. apply Forall_app. split.
    - apply Forall_replicate. reflexivity.
    - apply Forall_forall. intros row Hrow. apply list_elem_of_filter in Hrow as [Hrow _].
      exact Hrow. }
  split; [exact Hboard |]. split; [exact Hwf' |]. split; [exact Hnone |].
  split; [apply collectCompleted_none; exact Hnone |].
  unfold checkCompletedRows. rewrite (collectCompleted_none _ 0 Hnone). reflexivity.
Qed.

Lemma clear_leaves_no_full_row_witness :
  let b := <[19%nat := replicate 10 (Str "bg-cyan-500")]> createEmptyBoard in
  let task := {| boardToCheck := b; completedRowIndices := [19%nat];
                 cl_score := 0; cl_level := 1 |} in
  let w := {| st := applyState initialState (setBoard b); timeouts := [task] |} in
  exists w',
    step w TimeoutFires = Some w' /\
    timeouts w' = [] /\
    board (st w') =
      replicate (length (filter (fun row => rowIsFull row = true) b)) emptyRow ++
      filter (fun row => rowIsFull row = false) b /\
    wellFormed (board (st w')) /\
    Forall (fun row => rowIsFull row = false) (board (st w')) /\
    collectCompleted (board (st w')) 0 = [] /\
    checkCompletedRows (st w') (board (st w')) = [].
Proof.
  intros b task w. apply (clear_leaves_no_full_row w initialState b task []).
  - split; [reflexivity |]. vm_compute. repeat constructor.
  - vm_compute. right. left. reflexivity.
  - reflexivity.
Defined.

Lemma collectCompleted_elem (rows : Board) (i j : nat) :
  j ∈ collectCompleted rows i <->
  exists k row, j = (i + k)%nat /\ rows !! k = Some row /\ rowIsFull row = true.
Proof.
  revert i. induction rows as [| row rest IH]; intros i; simpl.
  - split; [intros H; inversion H | intros (k & r & _ & Hk & _); discriminate].
  - assert (j ∈ collectCompleted rest (S i) <->
            exists k r, j = (i + S k)%nat /\ rest !! k = Some r /\ rowIsFull r = true) as IH'.
    { rewrite IH. split; intros (k & r & Hj & Hk & Hf); exists k, r;
        (split; [lia | auto]). }
    destruct (rowIsFull row) eqn:Hfull.
    + rewrite elem_of_cons, IH'. split.
      * intros [-> | (k & r & Hj & Hk & Hf)].
        -- exists 0%nat, row. split; [lia | auto].
        -- exists (S k), r. auto.
      * intros ([| k] & r & Hj & Hk & Hf); simpl in Hk.
        -- left. lia.
        -- right. exists k, r. auto.
    + rewrite IH'. split.
      * intros (k & r & Hj & Hk & Hf). exists (S k), r. auto.
      * intros ([| k] & r & Hj & Hk & Hf); simpl in Hk.
        -- injection Hk as <-. congruence.
        -- exists k, r. auto.
Qed.

(** X16.  The scan of [checkCompletedRows] reports exactly the indices
    of the rows that hold no 0: an index is reported if and only if the
    board has a row there and every cell of that row is nonzero. *)
Theorem completed_rows_are_full_rows (b : Board) (i : nat) :
  i ∈ collectCompleted b 0 <->
  exists row, b !! i = Some row /\ forall v, v ∈ row -> v <> Num 0.
Proof.
  rewrite collectCompleted_elem. split.
  - intros (k & row & -> & Hk & Hfull). exists row. split; [exact Hk |].
    intros v Hv. unfold rowIsFull in Hfull. rewrite forallb_forall in Hfull.
    apply nonzero_true, Hfull, list_elem_of_In. exact Hv.
  - intros (row & Hrow & Hall). exists i, row. split; [reflexivity |].
    split; [exact Hrow |]. unfold rowIsFull. apply forallb_forall.
    intros v Hv. apply nonzero_true, Hall, list_elem_of_In. exact Hv.
Qed.

(** ** The fresh board, the drawn board, the touch buttons *)

Lemma createEmptyBoard_not_occupied (cx cy : Z) : ~ occupied createEmptyBoard cx cy.
Proof.
  intros (_ & _ & row & v & Hrow & Hv & Hnz). unfold createEmptyBoard in Hrow.
  apply lookup_replicate in Hrow as [-> _]. unfold emptyRow in Hv.
  apply lookup_replicate in Hv as [-> _]. congruence.
Qed.

(** X18.  On the board of [createEmptyBoard] a placement collides
    exactly when a nonzero shape entry lands left of, right of or below
    the board. *)
Theorem empty_board_collides_only_out_of_bounds (x y : Z) (sh : Shape) :
  checkCollision createEmptyBoard x y sh = true <->
  exists r c, shapeCell sh r c /\
    (x + Z.of_nat c < 0 \/ x + Z.of_nat c >= 10 \/ y + Z.of_nat r >= 20).
Proof.
  rewrite checkCollision_true. split.
  - intros (r & c & Hcell & Hhit). exists r, c. split; [exact Hcell |].
    apply (collidesAt_true _ _ _ wellFormed_createEmptyBoard) in Hhit.
    destruct Hhit as [H | [H | [H | [_ Hocc]]]]; auto.
    destruct (createEmptyBoard_not_occupied _ _ Hocc).
  - intros (r & c & Hcell & Hout). exists r, c. split; [exact Hcell |].
    apply (collidesAt_true _ _ _ wellFormed_createEmptyBoard).
    unfold BOARD_WIDTH, BOARD_HEIGHT. tauto.
Qed.

(** X17.  On a 20 x 10 board, what [renderBoard] draws is the board
    itself when there is no active piece; with an active piece it is a
    20 x 10 board that shows the piece's colour in the cells under its
    nonzero entries and the board everywhere else, and it is the very
    board that [placePiece] would install at that moment. *)
Theorem display_is_board_under_piece (s : State) (randKey : Key.t) :
  wellFormed (board s) ->
  match currentPiece s with
  | None => displayBoard s = Some (board s)
  | Some p =>
      exists shown,
        displayBoard s = Some shown /\ wellFormed shown /\
        (forall cy cx, (cy < 20)%nat -> (cx < 10)%nat -> covers p cy cx ->
           cellAt shown cy cx = Some (Str (color (Piece.tetromino p)))) /\
        (forall cy cx, ~ covers p cy cx -> cellAt shown cy cx = cellAt (board s) cy cx) /\
        board (stateAfter s (placePiece s randKey)) = shown
  end.
Proof.
  intros Hwf. unfold displayBoard.
  destruct (currentPiece s) as [p |] eqn:Hp; [| reflexivity].
  destruct (placeRows_paints p (shape (Piece.tetromino p)) 0 (board s) Hwf)
    as (shown & Hshown & Hwf' & Hink & Hframe).
  exists shown. split; [exact Hshown |]. split; [exact Hwf' |]. split; [| split].
  - intros cy cx Hcy Hcx Hcov.
    apply Hink; [exact Hcy | exact Hcx | apply hitsRows_covers; exact Hcov].
  - intros cy cx Hnot. destruct (Hframe cy cx) as [Heq | [_ Hhit]]; [exact Heq |].
    exfalso. apply Hnot, hitsRows_covers. exact Hhit.
  - apply (placePiece_board s p randKey shown Hp Hshown).
Qed.

Lemma display_is_board_under_piece_witness :
  let p := {| Piece.x := 4; Piece.y := 7; Piece.tetromino := randomTetromino Key.J |} in
  let s := applyState initialState (setCurrentPiece (Some p)) in
  exists shown,
    displayBoard s = Some shown /\ wellFormed shown /\
    (forall cy cx, (cy < 20)%nat -> (cx < 10)%nat -> covers p cy cx ->
       cellAt shown cy cx = Some (Str (color (Piece.tetromino p)))) /\
    (forall cy cx, ~ covers p cy cx -> cellAt shown cy cx = cellAt (board s) cy cx) /\
    board (stateAfter s (placePiece s Key.I)) = shown.
Proof.
  intros p s.
  exact (display_is_board_under_piece s Key.I wellFormed_createEmptyBoard).
Defined.

(** X19.  Each touch button does what its key does, and so does the
    fall timer: in every session the left, right, rotate and down
    buttons lead to the same session as the left, right, up and down
    arrows, and a tick of the fall timer to the same session as the down
    arrow. *)
Theorem touch_buttons_are_keys (w : World) (randKey : Key.t) :
  step w TouchLeft = step w (KeyPress ArrowLeft randKey) /\
  step w TouchRight = step w (KeyPress ArrowRight randKey) /\
  step w TouchRotate = step w (KeyPress ArrowUp randKey) /\
  step w (TouchDown randKey) = step w (KeyPress ArrowDown randKey) /\
  step w (Interval randKey) = step w (KeyPress ArrowDown randKey).
Proof.
  unfold step, handler, handleKeyPress.
  destruct (gameOver (st w)); repeat split; reflexivity.
Qed.

(** ** A lock followed by its row removal *)

Lemma placePiece_scheduled (s : State) (p : Piece.t) (randKey : Key.t) (nb : Board) :
  currentPiece s = Some p ->
  placeRows (board s) p (shape (Piece.tetromino p)) 0 = Some nb ->
  scheduled (queued (placePiece s randKey)) = scheduled (checkCompletedRows s nb).
Proof.
  intros Hp Hplace. unfold placePiece. rewrite Hp, Hplace.
  unfold checkCompletedRows.
  destruct (0 <? length (collectCompleted nb 0))%nat;
    destruct randKey; unfold spawnNewPiece; simpl;
    match goal with
    | |- context [checkCollision ?b ?x ?y ?sh] => destruct (checkCollision b x y sh)
    end; reflexivity.
Qed.

Lemma filter_keeps_all_when_none_full (rows : Board) :
  length (filter (fun row => rowIsFull row = true) rows) = 0%nat ->
  filter (fun row => rowIsFull row = false) rows = rows.
Proof.
  induction rows as [| row rest IH]; [reflexivity |].
  destruct (rowIsFull row) eqn:Hfull.
  - rewrite filter_cons_True by assumption. discriminate.
  - rewrite (filter_cons_False (fun row => rowIsFull row = true)) by congruence.
    rewrite filter_cons_True by assumption. intros H. rewrite (IH H). reflexivity.
Qed.

(** X20.  With nothing pending, on a 20 x 10 board, the down arrow on a
    piece that cannot move down locks it, and the timeout that follows
    (if the lock completed rows) gives: the locked board with its n full
    rows replaced by n empty rows on top, the other rows in their order;
    the score raised by n * 100 * level; nothing pending.  With n = 0
    board and score are those of the lock.  Score and level are taken
    in the range where the sum is an integer that a double holds
    exactly (at most 2^53), and the new score is in that range too. *)
Theorem lock_then_clear (w : World) (p : Piece.t) (randKey : Key.t) :
  timeouts w = [] ->
  gameOver (st w) = false ->
  currentPiece (st w) = Some p ->
  wellFormed (board (st w)) ->
  isValidMove (board (st w)) (Piece.x p) (Piece.y p + 1) (shape (Piece.tetromino p)) = false ->
  0 <= score (st w) ->
  1 <= level (st w) ->
  score (st w) + 2000 * level (st w) <= 2 ^ 53 ->
  exists w1 w2,
    step w (KeyPress ArrowDown randKey) = Some w1 /\
    step w1 TimeoutFires = Some w2 /\
    let locked := board (st w1) in
    let n := length (filter (fun row => rowIsFull row = true) locked) in
    board (st w2) =
      replicate n emptyRow ++ filter (fun row => rowIsFull row = false) locked /\
    score (st w2) = score (st w) + Z.of_nat n * 100 * level (st w) /\
    0 <= score (st w2) <= 2 ^ 53 /\
    timeouts w2 = [].
Proof.
  intros Hq Hplay Hp Hwf Hblocked Hscore0 Hlevel1 Hrange.
  destruct (placeRows_paints p (shape (Piece.tetromino p)) 0 (board (st w)) Hwf)
    as (nb & Hnb & Hwfnb & _).
  destruct (placePiece_board (st w) p randKey nb Hp Hnb) as [_ Hboard].
  assert (step w (KeyPress ArrowDown randKey) =
          Some (applyUpdates w (queued (placePiece (st w) randKey)))) as Hstep1.
  { unfold step, handler, handleKeyPress, moveDown. rewrite Hplay, Hp, Hblocked.
    reflexivity. }
  set (w1 := applyUpdates w (queued (placePiece (st w) randKey))) in *.
  assert (board (st w1) = nb) as Hb1 by (unfold w1; rewrite applyUpdates_st; exact Hboard).
  assert (score (st w1) = score (st w)) as Hs1.
  { unfold w1. rewrite applyUpdates_st. apply keepsScore_foldl.
    eapply Forall_impl; [apply placePiece_quiet |]. intros u [_ Hu]. exact Hu. }
  assert (timeouts w1 = scheduled (checkCompletedRows (st w) nb)) as Hq1.
  { unfold w1. rewrite applyUpdates_timeouts, Hq. simpl.
    apply (placePiece_scheduled (st w) p randKey nb Hp Hnb). }
  pose proof (collectCompleted_length nb 0) as Hcount.
  pose proof (full_plus_rest nb) as Hsum.
  destruct Hwfnb as [Hlen _]. unfold BOARD_HEIGHT in Hlen.
  assert (0 <= Z.of_nat (length (filter (fun row => rowIsFull row = true) nb)) <= 20)
    as Hn by lia.
  exists w1. unfold checkCompletedRows in Hq1.
  destruct (0 <? length (collectCompleted nb 0))%nat eqn:Hany.
  - simpl in Hq1.
    eexists. split; [exact Hstep1 |]. split; [unfold step; rewrite Hq1; reflexivity |].
    rewrite Hb1. cbv zeta.
    rewrite applyUpdates_timeouts, clearCallback_schedules_nothing, applyUpdates_st.
    cbn [st timeouts].
    destruct (clearCallback_scoring (st w1)
                {| boardToCheck := nb; completedRowIndices := collectCompleted nb 0;
                   cl_score := score (st w); cl_level := level (st w) |}) as (Hscore & _).
    rewrite Hscore, clearCallback_board. cbn [boardToCheck completedRowIndices cl_score cl_level].
    rewrite Hcount. split; [| split; [reflexivity | split; [nia | reflexivity]]].
    assert (filterRows nb (collectCompleted nb 0) 0 =
            filter (fun row => rowIsFull row = false) nb) as ->
      by (apply (filterRows_collect nb 0 []); intros j Hj; inversion Hj).
    unfold unshiftEmptyRows, BOARD_HEIGHT. f_equal. f_equal. lia.
  - simpl in Hq1. apply Nat.ltb_ge in Hany.
    exists w1. split; [exact Hstep1 |]. split; [unfold step; rewrite Hq1; reflexivity |].
    rewrite Hb1. cbv zeta.
    assert (length (filter (fun row => rowIsFull row = true) nb) = 0%nat) as Hzero by lia.
    rewrite Hzero, (filter_keeps_all_when_none_full nb Hzero), Hs1, Hq1. simpl.
    split; [reflexivity |]. split; [lia |]. split; [nia | reflexivity].
Qed.

(** An O piece that rests in the gap of the bottom row, at score 300:
    the lock completes the row and the removal brings the score to
    400. *)
Lemma lock_then_clear_witness :
  let p := {| Piece.x := 8; Piece.y := 18; Piece.tetromino := randomTetromino Key.O |} in
  let gap := <[19%nat := replicate 8 (Str "bg-cyan-500") ++ [Num 0; Num 0]]> createEmptyBoard in
  let w := {| st := {| board := gap; currentPiece := Some p; score := 300;
                       gameOver := false; dropTime := INITIAL_DROP_TIME; level := 1;
                       completedRows := [] |};
              timeouts := [] |} in
  match step w (KeyPress ArrowDown Key.I) with
  | Some w1 =>
      length (filter (fun row => rowIsFull row = true) (board (st w1))) = 1%nat /\
      length (timeouts w1) = 1%nat
  | None => False
  end /\
  exists w1 w2,
    step w (KeyPress ArrowDown Key.I) = Some w1 /\
    step w1 TimeoutFires = Some w2 /\
    let locked := board (st w1) in
    let n := length (filter (fun row => rowIsFull row = true) locked) in
    board (st w2) =
      replicate n emptyRow ++ filter (fun row => rowIsFull row = false) locked /\
    score (st w2) = score (st w) + Z.of_nat n * 100 * level (st w) /\
    0 <= score (st w2) <= 2 ^ 53 /\
    timeouts w2 = [].
Proof.
  intros p gap w. split.
  - vm_compute. split; reflexivity.
  - apply (lock_then_clear w p Key.I).
    + reflexivity.
    + reflexivity.
    + reflexivity.
    + split; [reflexivity |]. vm_compute. repeat constructor.
    + vm_compute. reflexivity.
    + vm_compute. discriminate.
    + vm_compute. discriminate.
    + vm_compute. discriminate.
Defined.
